(** * The RabbitMQ broker controller of asyncapi-codegen

    A shallow embedding of [pkg/extensions/brokers/rabbitmq]: the
    [Controller] with its constructor and options, [Publish], [Subscribe],
    [Close], and the [AcknowledgementHandler].

    The AMQP client library is outside the repository.  Every call the
    controller makes into it is an operation [Op] whose answer is chosen by
    an arbitrary transport (a handler threading its own state), so that each
    statement below holds for every behaviour of the broker.

    The module [GitCI] embeds the versioning helper of the build,
    [build/ci/dagger/git.go], in the same way: the commands it runs in its
    container are answered by an arbitrary container. *)

From Stdlib Require Import String List Lia ZArith.
From Stdlib.Strings Require Import Byte Ascii.
From stdpp Require Import gmap strings list fin_maps.

Local Open Scope string_scope.
Local Open Scope list_scope.

(** ** Go values *)

(** A Go [[]byte]. *)
Abbreviation bytes := (list Byte.byte).

(** A Go [string] is a sequence of bytes, and [[]byte(s)] is that sequence. *)
Definition bytes_of_string (s : string) : bytes := list_byte_of_string s.

(** A Go [error]: one raised by the transport, or one built by
    [fmt.Errorf("<prefix>: %w", err)] around another. *)
Inductive error : Type :=
| TransportError (msg : string)
| Errorf (prefix : string) (err : error).

(** [err.Error()], which is also what the verb [%v] prints for an error. *)
Fixpoint Error (e : error) : string :=
  match e with
  | TransportError msg => msg
  | Errorf prefix err => (prefix ++ ": " ++ Error err)%string
  end.

(** [errors.Unwrap], iterated: the error at the bottom of the chain. *)
Fixpoint root_cause (e : error) : error :=
  match e with
  | TransportError msg => TransportError msg
  | Errorf _ err => root_cause err
  end.

(** [fmt.Sprintf("%v", b)] for a Go [bool]. *)
Definition Sprintf_bool (b : bool) : string :=
  if b then "true" else "false".

(** Handles of the transport's objects and of the Go runtime's. *)
Definition Connection := nat.
Definition Channel := nat.
Definition DeliveryChan := nat.
Definition Context := nat.
Definition Config := nat.

(** Modelled from the spec: the logger capability [extensions.Logger],
    declared outside these sources; the controller only needs to tell the
    do-nothing default [extensions.DummyLogger] from a logger given by the
    caller. *)
Inductive Logger : Type :=
| DummyLogger
| CustomLogger (id : nat).

(** * The versioning helper of the build

    [Git] of build/ci/dagger/git.go: it asks git for the last commit and
    the last tag, remembers the answers, derives the next semantic version
    from them and pushes it as a tag. *)

Module GitCI.

(** ** Go's standard library, as far as git.go uses it *)

(** The two ways [strconv.Atoi] fails: [strconv.ErrSyntax] and
    [strconv.ErrRange]. *)
Inductive NumErr : Type :=
| ErrSyntax
| ErrRange.

(** The errors [Git] can return: the error of a command run in the
    container, one made by [errors.New], and the [*strconv.NumError] of
    [Atoi]. *)
Inductive goerror : Type :=
| ExecError (msg : string)
| ErrorsNew (msg : string)
| NumError (func num : string) (err : NumErr).

(** What a function returning [(T, error)] hands back. *)
Inductive outcome (T : Type) : Type :=
| Done (v : T)
| Failed (err : goerror).
#[global] Arguments Done {T} v.
#[global] Arguments Failed {T} err.

(** [strings.HasPrefix]. *)
Fixpoint HasPrefix (s prefix : string) {struct prefix} : bool :=
  match prefix, s with
  | EmptyString, _ => true
  | String a prefix, String b s => Ascii.eqb a b && HasPrefix s prefix
  | String _ _, EmptyString => false
  end.

(** [s[n:]], for [n] up to [len(s)]. *)
Fixpoint drop_bytes (n : nat) (s : string) : string :=
  match n, s with
  | S n, String _ s => drop_bytes n s
  | _, _ => s
  end.

(** [strings.TrimPrefix]: [s] without the leading [prefix], or [s] itself
    when it does not start with [prefix]. *)
Definition TrimPrefix (s prefix : string) : string :=
  if HasPrefix s prefix then drop_bytes (String.length prefix) s else s.

(** [strings.TrimSuffix]: [s] without the trailing [suffix], or [s] itself
    when it does not end with [suffix].  The rest of [s] from some position
    equals [suffix] at one position at most, the one where [suffix] ends
    [s]. *)
Fixpoint TrimSuffix (s suffix : string) : string :=
  if String.eqb s suffix then ""
  else match s with
       | EmptyString => ""
       | String a s => String a (TrimSuffix s suffix)
       end.

(** [strings.Split] for a separator of one byte, which is how git.go uses
    it: the pieces of [s] between the separators, one more than there are
    separators. *)
Fixpoint Split (s : string) (sep : ascii) : list string :=
  match s with
  | EmptyString => [""]
  | String a s =>
      if Ascii.eqb a sep then "" :: Split s sep
      else match Split s sep with
           | part :: parts => String a part :: parts
           | [] => [String a ""]
           end
  end.

(** The value of a decimal digit. *)
Definition digit (c : ascii) : option N :=
  let n := N_of_ascii c in
  if ((48 <=? n) && (n <=? 57))%N then Some (n - 48)%N else None.

Definition maxUint64 : N := 2 ^ 64 - 1.

(** The loop of [strconv.ParseUint] in base 10 and 64 bits: a byte that is
    no digit is a syntax error, a value beyond [maxUint64] a range error,
    whichever comes first. *)
Fixpoint parse_digits (n : N) (s : string) : NumErr + N :=
  match s with
  | EmptyString => inr n
  | String c s =>
      match digit c with
      | None => inl ErrSyntax
      | Some d =>
          if (maxUint64 / 10 + 1 <=? n)%N then inl ErrRange
          else
            let n1 := (n * 10 + d)%N in
            if (maxUint64 <? n1)%N then inl ErrRange else parse_digits n1 s
      end
  end.

(** [strconv.Atoi] where [int] has 64 bits: an optional sign, then one
    digit at least and digits only, and a value between -2^63 and
    2^63 - 1. *)
Definition Atoi (s : string) : outcome Z :=
  let neg := HasPrefix s "-" in
  let digits := if HasPrefix s "-" || HasPrefix s "+" then drop_bytes 1 s else s in
  match digits with
  | EmptyString => Failed (NumError "Atoi" s ErrSyntax)
  | _ =>
      match parse_digits 0 digits with
      | inl err => Failed (NumError "Atoi" s err)
      | inr un =>
          if negb neg && (2 ^ 63 <=? un)%N then Failed (NumError "Atoi" s ErrRange)
          else if neg && (2 ^ 63 <? un)%N then Failed (NumError "Atoi" s ErrRange)
          else Done (if neg then - Z.of_N un else Z.of_N un)%Z
      end
  end.

(** The digit that prints a value below ten. *)
Definition digit_byte (d : N) : ascii := ascii_of_N (48 + d).

(** The decimal digits of a number, as many as [fuel] allows. *)
Fixpoint format_digits (fuel : nat) (n : N) : string :=
  match fuel with
  | O => ""
  | S fuel =>
      if (n <? 10)%N then String (digit_byte n) ""
      else (format_digits fuel (n / 10) ++ String (digit_byte (n mod 10)) "")%string
  end.

(** The verb [%d] on an [int]; twenty digits are enough for 64 bits. *)
Definition format_int (z : Z) : string :=
  if (z <? 0)%Z then String "-" (format_digits 20 (Z.to_N (- z)))
  else format_digits 20 (Z.to_N z).


(** [fmt.Sprintf("v%d.%d.%d", major, minor, patch)]. *)
Definition Sprintf_semver (major minor patch : Z) : string :=
  ("v" ++ format_int major ++ "." ++ format_int minor ++ "." ++ format_int patch)%string.

(** [x += 1] on an [int]: 64 bits, wrapping round. *)
Definition int_incr (x : Z) : Z :=
  ((x + 1 + 2 ^ 63) mod 2 ^ 64 - 2 ^ 63)%Z.

(** The string ["\n"]. *)
Definition newline : string := String (ascii_of_nat 10) "".

(** ** Running git in the container *)

(** A method of [Git]: it returns, or runs commands in the container,
    [g.container.WithExec(...).Stdout(ctx)], and goes on with what they
    printed or with their error. *)
Inductive Prog (R : Type) : Type :=
| Ret (r : R)
| Exec (commands : list (list string)) (k : outcome string -> Prog R).
#[global] Arguments Ret {R} r.
#[global] Arguments Exec {R} commands k.

Fixpoint bind {A B : Type} (f : A -> Prog B) (p : Prog A) : Prog B :=
  match p with
  | Ret r => f r
  | Exec commands k => Exec commands (fun x => bind f (k x))
  end.

#[global] Instance Prog_bind : MBind Prog := @bind.

Definition exec (commands : list (list string)) : Prog (outcome string) :=
  Exec commands Ret.

(** A container answers every run of commands, from a state of its own. *)
Definition Container (S : Type) : Type :=
  list (list string) -> S -> outcome string * S.

(** The outcome of a method: the runs made with their answers, the
    container's state afterwards, and the value returned. *)
Record Run (S R : Type) : Type := mkRun {
  trace : list (list (list string) * outcome string);
  final : S;
  returned : R
}.
#[global] Arguments mkRun {S R} trace final returned.
#[global] Arguments trace {S R} r.
#[global] Arguments final {S R} r.
#[global] Arguments returned {S R} r.

Fixpoint run {S R : Type} (t : Container S) (p : Prog R) (s : S) : Run S R :=
  match p with
  | Ret r => mkRun [] s r
  | Exec commands k =>
      let '(x, s') := t commands s in
      let r := run t (k x) s' in
      mkRun ((commands, x) :: trace r) (final r) (returned r)
  end.

(** The commands of a run, without the answers. *)
Definition executed {S R : Type} (r : Run S R) : list (list (list string)) :=
  map fst (trace r).

(** ** [Git] *)

(** [Git], without the container, which no method changes. *)
Record Git : Type := mkGit {
  lastCommit_title : string;
  lastCommit_shortSHA : string;
  lastTag : string;
  newSemVer : string;
  actualBranch : string
}.

(** The assignments to the fields. *)
Definition set_lastCommit_title (v : string) (g : Git) : Git :=
  {| lastCommit_title := v; lastCommit_shortSHA := g.(lastCommit_shortSHA);
     lastTag := g.(lastTag); newSemVer := g.(newSemVer);
     actualBranch := g.(actualBranch) |}.

Definition set_lastCommit_shortSHA (v : string) (g : Git) : Git :=
  {| lastCommit_title := g.(lastCommit_title); lastCommit_shortSHA := v;
     lastTag := g.(lastTag); newSemVer := g.(newSemVer);
     actualBranch := g.(actualBranch) |}.

Definition set_lastTag (v : string) (g : Git) : Git :=
  {| lastCommit_title := g.(lastCommit_title);
     lastCommit_shortSHA := g.(lastCommit_shortSHA);
     lastTag := v; newSemVer := g.(newSemVer);
     actualBranch := g.(actualBranch) |}.

Definition set_newSemVer (v : string) (g : Git) : Git :=
  {| lastCommit_title := g.(lastCommit_title);
     lastCommit_shortSHA := g.(lastCommit_shortSHA);
     lastTag := g.(lastTag); newSemVer := v;
     actualBranch := g.(actualBranch) |}.

Definition set_actualBranch (v : string) (g : Git) : Git :=
  {| lastCommit_title := g.(lastCommit_title);
     lastCommit_shortSHA := g.(lastCommit_shortSHA);
     lastTag := g.(lastTag); newSemVer := g.(newSemVer);
     actualBranch := v |}.

Definition GetLastCommitShortSHA (g : Git) : Prog (Git * outcome string) :=
  if negb (String.eqb g.(lastCommit_shortSHA) "") then
    Ret (g, Done g.(lastCommit_shortSHA))
  else
    r ← exec [["git"; "rev-parse"; "--short"; "HEAD"]];
    match r with
    | Failed err => Ret (g, Failed err)
    | Done res =>
        let res := TrimSuffix res newline in
        let g := set_lastCommit_shortSHA res g in
        Ret (g, Done g.(lastCommit_shortSHA))
    end.

Definition GetActualBranch (g : Git) : Prog (Git * outcome string) :=
  if negb (String.eqb g.(actualBranch) "") then
    Ret (g, Done g.(actualBranch))
  else
    r ← exec [["git"; "rev-parse"; "--abbrev-ref"; "HEAD"]];
    match r with
    | Failed err => Ret (g, Failed err)
    | Done res =>
        let res := TrimSuffix res newline in
        let g := set_actualBranch res g in
        Ret (g, Done g.(actualBranch))
    end.

Definition GetLastCommitTitle (g : Git) : Prog (Git * outcome string) :=
  if negb (String.eqb g.(lastCommit_title) "") then
    Ret (g, Done g.(lastCommit_title))
  else
    r ← exec [["git"; "log"; "-1"; "--pretty=%B"]];
    match r with
    | Failed err => Ret (g, Failed err)
    | Done res =>
        let res := TrimSuffix res newline in
        let g := set_lastCommit_title res g in
        Ret (g, Done g.(lastCommit_title))
    end.

Definition GetLastTag (g : Git) : Prog (Git * outcome string) :=
  if negb (String.eqb g.(lastTag) "") then
    Ret (g, Done g.(lastTag))
  else
    r ← exec [["git"; "describe"; "--tags"; "--abbrev=0"]];
    match r with
    | Failed err => Ret (g, Failed err)
    | Done res =>
        let res := TrimSuffix res newline in
        let g := set_lastTag res g in
        Ret (g, Done g.(lastTag))
    end.

(** The part of [GetLastSemanticVersionedTag] after the tag is known. *)
Definition parse_tag (tag : string) : outcome (Z * Z * Z) :=
  let tag := TrimPrefix tag "v" in
  match Split tag "." with
  | [part0; part1; part2] =>
      match Atoi part0 with
      | Failed err => Failed err
      | Done major =>
          match Atoi part1 with
          | Failed err => Failed err
          | Done minor =>
              match Atoi part2 with
              | Failed err => Failed err
              | Done patch => Done (major, minor, patch)
              end
          end
      end
  | _ => Failed (ErrorsNew ("invalid tag format:" ++ tag))
  end.

Definition GetLastSemanticVersionedTag (g : Git) : Prog (Git * outcome (Z * Z * Z)) :=
  '(g, r) ← GetLastTag g;
  match r with
  | Failed err => Ret (g, Failed err)
  | Done tag => Ret (g, parse_tag tag)
  end.

(** The switch of [GetNewSemVerIfNeeded]; [None] is its default case. *)
Definition bump (title : string) (major minor patch : Z) : option (Z * Z * Z) :=
  if HasPrefix title "BREAKING CHANGE" then Some (int_incr major, 0, 0)%Z
  else if HasPrefix title "feat" then Some (major, int_incr minor, 0)%Z
  else if HasPrefix title "fix" then Some (major, minor, int_incr patch)
  else None.

Definition GetNewSemVerIfNeeded (g : Git) : Prog (Git * outcome string) :=
  if negb (String.eqb g.(newSemVer) "") then
    Ret (g, Done g.(newSemVer))
  else
    '(g, r) ← GetLastCommitTitle g;
    match r with
    | Failed err => Ret (g, Failed err)
    | Done title =>
        '(g, r) ← GetLastSemanticVersionedTag g;
        match r with
        | Failed err => Ret (g, Failed err)
        | Done (major, minor, patch) =>
            match bump title major minor patch with
            | None => Ret (g, Done "")
            | Some (major, minor, patch) =>
                let g := set_newSemVer (Sprintf_semver major minor patch) g in
                Ret (g, Done g.(newSemVer))
            end
        end
    end.

Definition PushNewSemVerIfNeeded (g : Git) : Prog (Git * option goerror) :=
  '(g, r) ← GetNewSemVerIfNeeded g;
  match r with
  | Failed err => Ret (g, Some err)
  | Done semver =>
      if String.eqb semver "" then Ret (g, None)
      else
        r ← exec [["git"; "tag"; semver]; ["git"; "push"; "--tags"]];
        match r with
        | Failed err => Ret (g, Some err)
        | Done _ => Ret (g, None)
        end
  end.

(** ** A container to try [Git] on *)

(** It answers the last command of a run from a table, and fails for a
    command that is not in the table. *)
Definition scripted (answers : list (list string * string)) : Container nat :=
  fun commands n =>
    match commands with
    | [] => (Failed (ExecError "nothing to run"), S n)
    | command :: _ =>
        match List.find (fun a => bool_decide (a.1 = List.last commands command))
                answers with
        | Some (_, out) => (Done out, S n)
        | None => (Failed (ExecError "exit status 128"), S n)
        end
    end.

(** A fresh [Git], and a repository whose last commit adds a feature on top
    of v0.46.2. *)
Definition git0 : Git := mkGit "" "" "" "" "".

Definition repository : Container nat :=
  scripted
    [(["git"; "log"; "-1"; "--pretty=%B"],
      ("feat: rabbitmq broker" ++ newline ++ newline)%string);
     (["git"; "describe"; "--tags"; "--abbrev=0"], ("v0.46.2" ++ newline)%string);
     (["git"; "push"; "--tags"], "")].

(** ** Stating the facts *)

(** The range of an [int]. *)
Definition in_int_range (z : Z) : Prop := (- 2 ^ 63 <= z < 2 ^ 63)%Z.

Fixpoint all_bytes (P : ascii -> bool) (s : string) : bool :=
  match s with
  | EmptyString => true
  | String a s => P a && all_bytes P s
  end.

Fixpoint count_byte (c : ascii) (s : string) : nat :=
  match s with
  | EmptyString => 0
  | String a s => (if Ascii.eqb a c then 1 else 0) + count_byte c s
  end.

Definition is_digit_byte (c : ascii) : bool := bool_decide (is_Some (digit c)).

Definition not_byte (sep c : ascii) : bool := negb (Ascii.eqb c sep).

(** Versions in their order of precedence. *)
Definition semver_lt (a b : Z * Z * Z) : Prop :=
  let '(major, minor, patch) := a in
  let '(major', minor', patch') := b in
  (major < major' \/
   major = major' /\ (minor < minor' \/ minor = minor' /\ patch < patch'))%Z.

(** The command of [GetLastTag] and the commands of the push. *)
Definition describe : list string := ["git"; "describe"; "--tags"; "--abbrev=0"].

Definition push_commands (semver : string) : list (list string) :=
  [["git"; "tag"; semver]; ["git"; "push"; "--tags"]].

(** The shape the four getters share: a field that remembers the answer of
    one command. *)
Definition cached_run {S : Type} (t : Container S) (s : S) (g : Git)
    (field : Git -> string) (set : string -> Git -> Git) (command : list string)
  : Run S (Git * outcome string) :=
  if String.eqb (field g) "" then
    let x := t [command] s in
    mkRun [([command], x.1)] x.2
      match x.1 with
      | Failed err => (g, Failed err)
      | Done res => (set (TrimSuffix res newline) g, Done (TrimSuffix res newline))
      end
  else mkRun [] s (g, Done (field g)).

(** What it means for a getter to remember its answer: it runs its command
    or nothing; it returns what git printed without the final newline; a
    failure and an empty answer leave the [Git] as it was, so that the next
    call asks again; after any other answer the next call runs nothing and
    returns the same. *)
Definition remembers (get : Git -> Prog (Git * outcome string))
    (command : list string) : Prop :=
  forall (S : Type) (t : Container S) (s : S) (g : Git),
    let first := run t (get g) s in
    let g1 := (returned first).1 in
    let second := run t (get g1) (final first) in
    (executed first = [] \/ executed first = [[command]]) /\
    (forall out, executed first = [[command]] ->
       (t [command] s).1 = Done (out ++ newline)%string ->
       (returned first).2 = Done out) /\
    match (returned first).2 with
    | Failed err => g1 = g /\ executed first = [[command]]
    | Done v =>
        if String.eqb v "" then g1 = g /\ executed second = [[command]]
        else second = mkRun [] (final first) (g1, Done v)
    end.

End GitCI.

Section Rabbitmq.

(** The dynamic types an [amqp.Table] value can have besides [[]byte] and
    [string], and what [fmt.Sprintf("%v", v)] prints for them. *)
Context {other : Type} (Sprintf_v : other -> string).

(** Constants of package [brokers], which is not part of these sources. *)
Variable BrokerMessagesQueueSize : nat.
Variable DefaultQueueGroupID : string.

(** ** Headers *)

(** A value of an [amqp.Table], that is, an [interface{}]. *)
Inductive TableValue : Type :=
| BytesValue (v : bytes)
| StringValue (v : string)
| OtherValue (v : other).

(** Modelled from the spec: [extensions.BrokerMessage], declared outside
    these sources: headers, a mapping from strings to bytes with unique
    keys, and an opaque payload. *)
Record BrokerMessage : Type := mkBrokerMessage {
  Headers : gmap string bytes;
  Payload : bytes
}.

(** The loop of [Publish] under "Convert headers":
    [headers := amqp.Table{}; for k, v := range bm.Headers { headers[k] = v }]. *)
Definition publish_headers (h : gmap string bytes) : gmap string TableValue :=
  map_fold (fun k v headers => <[k := BytesValue v]> headers) ∅ h.

(** The type switch of the forwarding goroutine of [Subscribe]. *)
Definition header_bytes (value : TableValue) : bytes :=
  match value with
  | BytesValue v => v
  | StringValue v => bytes_of_string v
  | OtherValue v => bytes_of_string (Sprintf_v v)
  end.

(** The loop of the forwarding goroutine under "Get headers":
    [headers := make(map[string][]byte); for key, value := range delivery.Headers {...}]. *)
Definition delivery_headers (t : gmap string TableValue) : gmap string bytes :=
  map_fold (fun key value headers => <[key := header_bytes value]> headers) ∅ t.

(** ** The transport *)

(** What a Go function returning [(T, error)] hands back: the value when
    the error is nil, the error otherwise. *)
Inductive result (T : Type) : Type :=
| Ok (v : T)
| Err (err : error).
#[global] Arguments Ok {T} v.
#[global] Arguments Err {T} err.

Abbreviation Table := (gmap string TableValue).

(** [amqp.Publishing], the fields that [Publish] sets. *)
Record Publishing : Type := mkPublishing {
  pub_ContentType : string;
  pub_Body : bytes;
  pub_Headers : Table
}.

(** [amqp.Delivery], the fields that the forwarding goroutine reads, and the
    tag under which the broker knows the delivery. *)
Record Delivery : Type := mkDelivery {
  dlv_Tag : nat;
  dlv_Headers : Table;
  dlv_Body : bytes
}.

(** The function literal that [Subscribe] hands to
    [sub.WaitForCancellationAsync], with the variables it captures. *)
Record Cleanup : Type := mkCleanup {
  cleanup_logger : Logger;
  cleanup_ctx : Context;
  cleanup_channel : Channel
}.

(** The calls the controller makes outside itself, with their arguments in
    the order of the Go signatures. *)
Inductive Op : Type :=
| Dial (url : string)
| DialConfig (url : string) (config : Config)
| ConnectionChannel (conn : Connection)
| ConnectionClose (conn : Connection)
| QueueDeclare (ch : Channel) (name : string)
    (durable autoDelete exclusive noWait : bool) (args : option Table)
| ChannelPublish (ch : Channel) (exchange key : string)
    (mandatory immediate : bool) (msg : Publishing)
| ChannelConsume (ch : Channel) (queue consumer : string)
    (autoAck exclusive noLocal noWait : bool) (args : option Table)
| ChannelCancel (ch : Channel) (consumer : string) (noWait : bool)
| ChannelClose (ch : Channel)
| DeliveryAck (d : Delivery) (multiple : bool)
| DeliveryNack (d : Delivery) (multiple requeue : bool)
| LoggerError (l : Logger) (ctx : Context) (msg : string)
| WaitForCancellationAsync (cleanup : Cleanup)
| GoForward (msgs : DeliveryChan).

(** What each call returns. *)
Definition Resp (o : Op) : Type :=
  match o with
  | Dial _ | DialConfig _ _ => result Connection
  | ConnectionChannel _ => result Channel
  | QueueDeclare _ _ _ _ _ _ _ => result unit
  | ChannelConsume _ _ _ _ _ _ _ _ => result DeliveryChan
  | ConnectionClose _ | ChannelPublish _ _ _ _ _ _ | ChannelCancel _ _ _
  | ChannelClose _ | DeliveryAck _ _ | DeliveryNack _ _ _ => option error
  | LoggerError _ _ _ | WaitForCancellationAsync _ | GoForward _ => unit
  end.

(** A Go function body: it returns, or calls out and goes on with the
    answer, or panics. *)
Inductive Prog (R : Type) : Type :=
| Ret (r : R)
| Call (o : Op) (k : Resp o -> Prog R)
| Panic.
#[global] Arguments Ret {R} r.
#[global] Arguments Call {R} o k.
#[global] Arguments Panic {R}.

Fixpoint bind {A B : Type} (f : A -> Prog B) (p : Prog A) : Prog B :=
  match p with
  | Ret r => f r
  | Call o k => Call o (fun x => bind f (k x))
  | Panic => Panic
  end.

#[global] Instance Prog_bind : MBind Prog := @bind.
#[global] Instance Prog_ret : MRet Prog := @Ret.

Definition call (o : Op) : Prog (Resp o) := Call o Ret.

(** [_ = f()], and a call used as a statement. *)
Definition discard {A : Type} (p : Prog A) : Prog unit := _ ← p; Ret tt.

(** [defer deferred] followed by [body]: the deferred call runs when the
    body returns and also when it panics. *)
Fixpoint defer {R : Type} (deferred : Prog unit) (body : Prog R) : Prog R :=
  match body with
  | Ret r => _ ← deferred; Ret r
  | Call o k => Call o (fun x => defer deferred (k x))
  | Panic => _ ← deferred; Panic
  end.

(** One call as it happened: the operation and the answer it got. *)
Inductive Event : Type :=
| Ev (o : Op) (x : Resp o).

Definition ev_op (e : Event) : Op :=
  match e with Ev o _ => o end.

Definition result_error {T : Type} (r : result T) : option error :=
  match r with
  | Ok _ => None
  | Err err => Some err
  end.

(** The error a call came back with, if any. *)
Definition ev_error (e : Event) : option error :=
  match e with
  | Ev o x =>
      match o return Resp o -> option error with
      | Dial _ | DialConfig _ _ => result_error
      | ConnectionChannel _ => result_error
      | QueueDeclare _ _ _ _ _ _ _ => result_error
      | ChannelConsume _ _ _ _ _ _ _ _ => result_error
      | ConnectionClose _ | ChannelPublish _ _ _ _ _ _ | ChannelCancel _ _ _
      | ChannelClose _ | DeliveryAck _ _ | DeliveryNack _ _ _ => fun err => err
      | LoggerError _ _ _ | WaitForCancellationAsync _ | GoForward _ => fun _ => None
      end x
  end.

(** A transport answers every call, from a state of its own. *)
Definition Transport (S : Type) : Type := forall o : Op, S -> Resp o * S.

(** The outcome of running a body: the calls made, the transport's state
    afterwards, and the value returned ([None] after a panic). *)
Record Run (S R : Type) : Type := mkRun {
  trace : list Event;
  final : S;
  returned : option R
}.
#[global] Arguments mkRun {S R} trace final returned.
#[global] Arguments trace {S R} r.
#[global] Arguments final {S R} r.
#[global] Arguments returned {S R} r.

Fixpoint run {S R : Type} (t : Transport S) (p : Prog R) (s : S) : Run S R :=
  match p with
  | Ret r => mkRun [] s (Some r)
  | Panic => mkRun [] s None
  | Call o k =>
      let '(x, s') := t o s in
      let r := run t (k x) s' in
      mkRun (Ev o x :: trace r) (final r) (returned r)
  end.

(** The operations of a run, without the answers. *)
Definition ops {S R : Type} (r : Run S R) : list Op := map ev_op (trace r).

(** The channel a call opened, if it is a successful [Connection.Channel]. *)
Definition ev_opened (e : Event) : option Channel :=
  match e with
  | Ev o x =>
      match o return Resp o -> option Channel with
      | ConnectionChannel _ =>
          fun r => match r with Ok ch => Some ch | Err _ => None end
      | _ => fun _ => None
      end x
  end.

(** Kinds of calls. *)
Definition is_channel_open (o : Op) : bool :=
  match o with ConnectionChannel _ => true | _ => false end.

Definition is_declare (o : Op) : bool :=
  match o with QueueDeclare _ _ _ _ _ _ _ => true | _ => false end.

Definition is_send (o : Op) : bool :=
  match o with ChannelPublish _ _ _ _ _ _ => true | _ => false end.

Definition is_consume (o : Op) : bool :=
  match o with ChannelConsume _ _ _ _ _ _ _ _ => true | _ => false end.

Definition is_channel_close (o : Op) : bool :=
  match o with ChannelClose _ => true | _ => false end.

Definition is_connection_close (o : Op) : bool :=
  match o with ConnectionClose _ => true | _ => false end.

Definition is_dial (o : Op) : bool :=
  match o with Dial _ | DialConfig _ _ => true | _ => false end.

Definition is_consumer_cancel (o : Op) : bool :=
  match o with ChannelCancel _ _ _ => true | _ => false end.

(** How many of the calls are of a kind. *)
Definition count_ops (kind : Op -> bool) (l : list Op) : nat :=
  length (List.filter kind l).

(** ** The controller *)

(** [Controller]; [connection] is a pointer, nil until a connection is made. *)
Record Controller : Type := mkController {
  url : string;
  connection : option Connection;
  logger : Logger;
  queueGroup : string
}.

(** The assignments [controller.connection = conn],
    [controller.logger = logger] and [controller.queueGroup = name]. *)
Definition set_connection (conn : Connection) (c : Controller) : Controller :=
  {| url := c.(url); connection := Some conn;
     logger := c.(logger); queueGroup := c.(queueGroup) |}.

Definition set_logger (l : Logger) (c : Controller) : Controller :=
  {| url := c.(url); connection := c.(connection);
     logger := l; queueGroup := c.(queueGroup) |}.

Definition set_queueGroup (name : string) (c : Controller) : Controller :=
  {| url := c.(url); connection := c.(connection);
     logger := c.(logger); queueGroup := name |}.

(** [ControllerOption]: a function that may change the controller it is
    given, may call out, and returns an error or nil. *)
Definition ControllerOption : Type :=
  Controller -> Prog (Controller * option error).

(** The loop of [NewController] under "Execute options". *)
Fixpoint apply_options (options : list ControllerOption) (controller : Controller)
  : Prog (result Controller) :=
  match options with
  | [] => Ret (Ok controller)
  | option :: options =>
      '(controller, err) ← option controller;
      match err with
      | Some err => Ret (Err (Errorf "could not apply option to controller" err))
      | None => apply_options options controller
      end
  end.

(** The controller of [NewController] under "Create default controller". *)
Definition default_controller (address : string) : Controller :=
  {| url := address; connection := None;
     queueGroup := DefaultQueueGroupID; logger := DummyLogger |}.

Definition NewController (url : string) (options : list ControllerOption)
  : Prog (result Controller) :=
  let controller := default_controller url in
  r ← apply_options options controller;
  match r with
  | Err err => Ret (Err err)
  | Ok controller =>
      match connection controller with
      | None =>
          r ← call (Dial url);
          match r with
          | Err err => Ret (Err (Errorf "could not connect to RabbitMQ" err))
          | Ok conn => Ret (Ok (set_connection conn controller))
          end
      | Some _ => Ret (Ok controller)
      end
  end.

Definition WithQueueGroup (name : string) : ControllerOption :=
  fun controller => Ret (set_queueGroup name controller, None).

Definition WithLogger (logger : Logger) : ControllerOption :=
  fun controller => Ret (set_logger logger controller, None).

Definition WithConnectionOpts (config : Config) : ControllerOption :=
  fun controller =>
    r ← call (DialConfig controller.(url) config);
    match r with
    | Err err => Ret (controller, Some (Errorf "could not connect to RabbitMQ" err))
    | Ok conn => Ret (set_connection conn controller, None)
    end.

(** [Publish]; the context argument is not used.  On a nil connection the
    call of [Channel] dereferences it and panics. *)
Definition Publish (c : Controller) (queueName : string) (bm : BrokerMessage)
  : Prog (option error) :=
  match c.(connection) with
  | None => Panic
  | Some conn =>
      r ← call (ConnectionChannel conn);
      match r with
      | Err err => Ret (Some err)
      | Ok channel =>
          defer (discard (call (ChannelClose channel)))
            (r ← call (QueueDeclare channel queueName
                         false (* durable *)
                         false (* auto-delete when unused *)
                         false (* exclusive *)
                         false (* no-wait *)
                         None (* arguments *));
             match r with
             | Err err => Ret (Some (Errorf "failed to declare queue" err))
             | Ok _ =>
                 let headers := publish_headers bm.(Headers) in
                 err ← call (ChannelPublish channel
                               "" (* exchange *)
                               queueName (* routing key (queue name) *)
                               false (* mandatory *)
                               false (* immediate *)
                               {| pub_ContentType := "text/plain";
                                  pub_Body := bm.(Payload);
                                  pub_Headers := headers |});
                 match err with
                 | Some err => Ret (Some err)
                 | None => Ret None
                 end
             end)
      end
  end.

(** [AcknowledgementHandler]; [Delivery] is a pointer, and the methods
    dereference it. *)
Record AcknowledgementHandler : Type := mkAcknowledgementHandler {
  handler_Delivery : option Delivery
}.

Definition AckMessage (h : AcknowledgementHandler) : Prog unit :=
  match h.(handler_Delivery) with
  | None => Panic
  | Some d => discard (call (DeliveryAck d false))
  end.

Definition NakMessage (h : AcknowledgementHandler) : Prog unit :=
  match h.(handler_Delivery) with
  | None => Panic
  | Some d => discard (call (DeliveryNack d false false))
  end.

(** Modelled from the spec: [extensions.AcknowledgeableBrokerMessage] as
    built by [extensions.NewAcknowledgeableBrokerMessage], declared outside
    these sources: a message paired with the one handler that acknowledges
    it. *)
Record AcknowledgeableBrokerMessage : Type := NewAcknowledgeableBrokerMessage {
  abm_message : BrokerMessage;
  abm_handler : AcknowledgementHandler
}.

(** A Go channel made by [make(chan T, capacity)], by what it holds. *)
Record chan (T : Type) : Type := mkChan {
  chan_cap : nat;
  chan_buf : list T
}.
#[global] Arguments mkChan {T} chan_cap chan_buf.
#[global] Arguments chan_cap {T} c.
#[global] Arguments chan_buf {T} c.

Definition make_chan (T : Type) (capacity : nat) : chan T :=
  {| chan_cap := capacity; chan_buf := [] |}.

(** Modelled from the spec: [extensions.BrokerChannelSubscription] as built
    by [extensions.NewBrokerChannelSubscription], declared outside these
    sources: the bounded buffer of messages for the consumer and the
    cancellation control, each a Go channel. *)
Record BrokerChannelSubscription : Type := NewBrokerChannelSubscription {
  sub_messages : chan AcknowledgeableBrokerMessage;
  sub_cancel : chan unit
}.

(** [Subscribe].  On an error Go returns the zero subscription beside it;
    here the error alone. *)
Definition Subscribe (c : Controller) (ctx : Context) (queueName : string)
  : Prog (result BrokerChannelSubscription) :=
  let sub :=
    NewBrokerChannelSubscription
      (make_chan AcknowledgeableBrokerMessage BrokerMessagesQueueSize)
      (make_chan unit 1) in
  match c.(connection) with
  | None => Panic
  | Some conn =>
      r ← call (ConnectionChannel conn);
      match r with
      | Err err => Ret (Err err)
      | Ok channel =>
          r ← call (QueueDeclare channel queueName
                      false (* durable *)
                      false (* auto-delete when unused *)
                      false (* exclusive *)
                      false (* no-wait *)
                      None (* arguments *));
          match r with
          | Err err => Ret (Err (Errorf "failed to declare queue" err))
          | Ok _ =>
              r ← call (ChannelConsume channel queueName
                          "" (* consumer tag *)
                          false (* auto-ack *)
                          false (* exclusive *)
                          false (* no-local (deprecated) *)
                          false (* no-wait *)
                          None (* arguments *));
              match r with
              | Err err =>
                  Ret (Err (Errorf "failed to start consuming from queue" err))
              | Ok msgs =>
                  _ ← call (WaitForCancellationAsync
                              {| cleanup_logger := c.(logger);
                                 cleanup_ctx := ctx;
                                 cleanup_channel := channel |});
                  _ ← call (GoForward msgs);
                  Ret (Ok sub)
              end
          end
      end
  end.

(** The body of the function literal handed to [WaitForCancellationAsync]. *)
Definition run_cleanup (f : Cleanup) : Prog unit :=
  err ← call (ChannelCancel f.(cleanup_channel) "" false);
  _ ← match err with
      | Some err =>
          call (LoggerError f.(cleanup_logger) f.(cleanup_ctx)
                  ("failed to cancel consumer: " ++ Error err)%string)
      | None => Ret tt
      end;
  discard (call (ChannelClose f.(cleanup_channel))).

(** One turn of the loop of the forwarding goroutine: the message made from
    a delivery.  Each handler points to the delivery of its own turn (the
    loop variable is per iteration, as from Go 1.22). *)
Definition forward_message (delivery : Delivery) : AcknowledgeableBrokerMessage :=
  let headers := delivery_headers delivery.(dlv_Headers) in
  NewAcknowledgeableBrokerMessage
    {| Headers := headers; Payload := delivery.(dlv_Body) |}
    {| handler_Delivery := Some delivery |}.

(** [Close]. *)
Definition Close (c : Controller) : Prog unit :=
  match c.(connection) with
  | Some conn => discard (call (ConnectionClose conn))
  | None => Ret tt
  end.

(** ** The subscription *)

(** Modelled from the spec: [TransmitReceivedMessage] of package
    [extensions], whose source is not part of these files.  It puts the
    message at the end of the bounded buffer, and blocks ([None]) while the
    buffer is full instead of dropping the message. *)
Definition TransmitReceivedMessage (sub : BrokerChannelSubscription)
    (msg : AcknowledgeableBrokerMessage) : option BrokerChannelSubscription :=
  let messages := sub.(sub_messages) in
  if (length messages.(chan_buf) <? messages.(chan_cap))%nat then
    Some {| sub_messages := {| chan_cap := messages.(chan_cap);
                               chan_buf := messages.(chan_buf) ++ [msg] |};
            sub_cancel := sub.(sub_cancel) |}
  else None.

(** Modelled from the spec: the consumer's side of the subscription in
    package [extensions], an ordered sequence of messages.  It takes the
    oldest message of the buffer, and waits ([None]) while there is none. *)
Definition ReceiveMessage (sub : BrokerChannelSubscription)
  : option (AcknowledgeableBrokerMessage * BrokerChannelSubscription) :=
  let messages := sub.(sub_messages) in
  match messages.(chan_buf) with
  | [] => None
  | msg :: buf =>
      Some (msg, {| sub_messages := {| chan_cap := messages.(chan_cap);
                                       chan_buf := buf |};
                    sub_cancel := sub.(sub_cancel) |})
  end.

(** The forwarding goroutine of [Subscribe] and the consumer, side by side. *)
Record Pipeline : Type := mkPipeline {
  (* what the transport puts on the channel returned by Consume and the
     goroutine has not taken yet, oldest first *)
  pl_msgs : list Delivery;
  (* the message in hand, when the goroutine is inside
     sub.TransmitReceivedMessage *)
  pl_transmitting : option AcknowledgeableBrokerMessage;
  pl_sub : BrokerChannelSubscription;
  (* what the consumer has received, oldest first *)
  pl_received : list AcknowledgeableBrokerMessage
}.

(** Who moves next. *)
Inductive Turn : Type :=
| Forwarder
| Consumer.

(** One move; [None] when the one whose turn it is cannot move: the
    goroutine waits for a delivery or for room in the buffer, the consumer
    waits for a message. *)
Definition pipeline_step (who : Turn) (p : Pipeline) : option Pipeline :=
  match who with
  | Forwarder =>
      match p.(pl_transmitting) with
      | None =>
          (* for delivery := range msgs { ... sub.TransmitReceivedMessage( *)
          match p.(pl_msgs) with
          | [] => None
          | delivery :: msgs =>
              Some {| pl_msgs := msgs;
                      pl_transmitting := Some (forward_message delivery);
                      pl_sub := p.(pl_sub);
                      pl_received := p.(pl_received) |}
          end
      | Some msg =>
          match TransmitReceivedMessage p.(pl_sub) msg with
          | None => None
          | Some sub =>
              Some {| pl_msgs := p.(pl_msgs);
                      pl_transmitting := None;
                      pl_sub := sub;
                      pl_received := p.(pl_received) |}
          end
      end
  | Consumer =>
      match ReceiveMessage p.(pl_sub) with
      | None => None
      | Some (msg, sub) =>
          Some {| pl_msgs := p.(pl_msgs);
                  pl_transmitting := p.(pl_transmitting);
                  pl_sub := sub;
                  pl_received := p.(pl_received) ++ [msg] |}
      end
  end.

(** A schedule played from a state; a turn that cannot move is skipped. *)
Fixpoint pipeline_run (schedule : list Turn) (p : Pipeline) : Pipeline :=
  match schedule with
  | [] => p
  | who :: schedule =>
      pipeline_run schedule (default p (pipeline_step who p))
  end.

(** The pipeline when [Subscribe] has just returned [sub] and the transport
    is to deliver [deliveries]. *)
Definition pipeline_start (sub : BrokerChannelSubscription)
    (deliveries : list Delivery) : Pipeline :=
  {| pl_msgs := deliveries; pl_transmitting := None;
     pl_sub := sub; pl_received := [] |}.

(** Everything in the pipeline, oldest first: received, buffered, being
    transmitted, and still to be made from the deliveries to come. *)
Definition pipeline_contents (p : Pipeline) : list AcknowledgeableBrokerMessage :=
  p.(pl_received) ++ p.(pl_sub).(sub_messages).(chan_buf)
    ++ option_list p.(pl_transmitting) ++ map forward_message p.(pl_msgs).

(** What is left to do before every message has been received: three moves
    for a delivery not yet taken, two for a message being transmitted, one
    for a message in the buffer. *)
Definition pipeline_work (p : Pipeline) : nat :=
  3 * length p.(pl_msgs) + 2 * length (option_list p.(pl_transmitting))
    + length p.(pl_sub).(sub_messages).(chan_buf).

(** Modelled from the spec: the states of a subscription, kept by package
    [extensions]: active, then cancelling while the cleanup runs, then
    closed for good. *)
Inductive SubscriptionState : Type :=
| Active
| Cancelling
| Closed.

(** Modelled from the spec: the cancellation of a subscription, which
    package [extensions] implements around the function given to
    [WaitForCancellationAsync].  The first signal takes an active
    subscription through the cleanup to [Closed]; any later one is a no-op. *)
Definition Cancel (f : Cleanup) (st : SubscriptionState) : Prog SubscriptionState :=
  match st with
  | Active => _ ← run_cleanup f; Ret Closed
  | Cancelling | Closed => Ret st
  end.

(** ** The shapes of a run *)

(** What a run of [Publish] can look like. *)
Inductive PublishRun {S : Type} (conn : Connection) (queueName : string)
    (bm : BrokerMessage) (r : Run S (option error)) : Prop :=
| publish_no_channel (err : error) :
    trace r = [Ev (ConnectionChannel conn) (Err err)] ->
    returned r = Some (Some err) ->
    PublishRun conn queueName bm r
| publish_no_queue (ch : Channel) (err : error) (closed : option error) :
    trace r = [Ev (ConnectionChannel conn) (Ok ch);
               Ev (QueueDeclare ch queueName false false false false None) (Err err);
               Ev (ChannelClose ch) closed] ->
    returned r = Some (Some (Errorf "failed to declare queue" err)) ->
    PublishRun conn queueName bm r
| publish_sent (ch : Channel) (sent closed : option error) :
    trace r = [Ev (ConnectionChannel conn) (Ok ch);
               Ev (QueueDeclare ch queueName false false false false None) (Ok tt);
               Ev (ChannelPublish ch "" queueName false false
                     {| pub_ContentType := "text/plain";
                        pub_Body := bm.(Payload);
                        pub_Headers := publish_headers bm.(Headers) |}) sent;
               Ev (ChannelClose ch) closed] ->
    returned r = Some sent ->
    PublishRun conn queueName bm r.

(** What a run of [Subscribe] can look like. *)
Inductive SubscribeRun {S : Type} (c : Controller) (conn : Connection)
    (ctx : Context) (queueName : string)
    (r : Run S (result BrokerChannelSubscription)) : Prop :=
| subscribe_no_channel (err : error) :
    trace r = [Ev (ConnectionChannel conn) (Err err)] ->
    returned r = Some (Err err) ->
    SubscribeRun c conn ctx queueName r
| subscribe_no_queue (ch : Channel) (err : error) :
    trace r = [Ev (ConnectionChannel conn) (Ok ch);
               Ev (QueueDeclare ch queueName false false false false None) (Err err)] ->
    returned r = Some (Err (Errorf "failed to declare queue" err)) ->
    SubscribeRun c conn ctx queueName r
| subscribe_no_consumer (ch : Channel) (err : error) :
    trace r = [Ev (ConnectionChannel conn) (Ok ch);
               Ev (QueueDeclare ch queueName false false false false None) (Ok tt);
               Ev (ChannelConsume ch queueName "" false false false false None) (Err err)] ->
    returned r = Some (Err (Errorf "failed to start consuming from queue" err)) ->
    SubscribeRun c conn ctx queueName r
| subscribe_started (ch : Channel) (msgs : DeliveryChan) :
    trace r = [Ev (ConnectionChannel conn) (Ok ch);
               Ev (QueueDeclare ch queueName false false false false None) (Ok tt);
               Ev (ChannelConsume ch queueName "" false false false false None) (Ok msgs);
               Ev (WaitForCancellationAsync
                     {| cleanup_logger := c.(logger); cleanup_ctx := ctx;
                        cleanup_channel := ch |}) tt;
               Ev (GoForward msgs) tt] ->
    returned r =
      Some (Ok (NewBrokerChannelSubscription
                  (make_chan AcknowledgeableBrokerMessage BrokerMessagesQueueSize)
                  (make_chan unit 1))) ->
    SubscribeRun c conn ctx queueName r.

(** ** Transports to try the controller on *)

(** The answer of a call that fails. *)
Definition refusal (o : Op) : Resp o :=
  match o return Resp o with
  | Dial _ | DialConfig _ _ => Err (TransportError "refused")
  | ConnectionChannel _ => Err (TransportError "refused")
  | QueueDeclare _ _ _ _ _ _ _ => Err (TransportError "refused")
  | ChannelConsume _ _ _ _ _ _ _ _ => Err (TransportError "refused")
  | ConnectionClose _ | ChannelPublish _ _ _ _ _ _ | ChannelCancel _ _ _
  | ChannelClose _ | DeliveryAck _ _ | DeliveryNack _ _ _ =>
      Some (TransportError "refused")
  | LoggerError _ _ _ | WaitForCancellationAsync _ | GoForward _ => tt
  end.

(** A broker where every call succeeds; its state is the next free handle. *)
Definition healthy : Transport nat :=
  fun o n =>
    match o return Resp o * nat with
    | Dial _ | DialConfig _ _ => (Ok n, S n)
    | ConnectionChannel _ => (Ok n, S n)
    | QueueDeclare _ _ _ _ _ _ _ => (Ok tt, n)
    | ChannelConsume _ _ _ _ _ _ _ _ => (Ok n, S n)
    | ConnectionClose _ | ChannelPublish _ _ _ _ _ _ | ChannelCancel _ _ _
    | ChannelClose _ | DeliveryAck _ _ | DeliveryNack _ _ _ => (None, n)
    | LoggerError _ _ _ | WaitForCancellationAsync _ | GoForward _ => (tt, n)
    end.

(** A broker that refuses the calls of one kind and is healthy otherwise. *)
Definition refusing (kind : Op -> bool) : Transport nat :=
  fun o n => if kind o then (refusal o, n) else healthy o n.

(** A controller as [NewController] leaves it, a message, two deliveries
    and the subscription that [Subscribe] returns. *)
Definition controller0 : Controller :=
  {| url := "amqp://rabbitmq:5672"; connection := Some 7;
     logger := DummyLogger; queueGroup := "ping-apps" |}.

Definition message0 : BrokerMessage :=
  {| Headers := {["trace" := bytes_of_string "a1"]};
     Payload := bytes_of_string "testmessage" |}.

Definition delivery1 : Delivery :=
  {| dlv_Tag := 1;
     dlv_Headers := {["trace" := BytesValue (bytes_of_string "a1")]};
     dlv_Body := bytes_of_string "M1" |}.

Definition delivery2 : Delivery :=
  {| dlv_Tag := 2;
     dlv_Headers := {["name" := StringValue "M2"]};
     dlv_Body := bytes_of_string "M2" |}.

Definition subscription0 : BrokerChannelSubscription :=
  NewBrokerChannelSubscription
    (make_chan AcknowledgeableBrokerMessage BrokerMessagesQueueSize)
    (make_chan unit 1).

(** A broker that keeps the connections it has closed and, as the AMQP
    client documents for [Connection.Close], answers the close of a
    connection already closed with an error and does nothing; otherwise it
    is the healthy broker. *)
Definition broker : Transport (nat * list Connection) :=
  fun o s =>
    match o as o' return Resp o' * (nat * list Connection) with
    | ConnectionClose conn =>
        if bool_decide (conn ∈ s.2)
        then (Some (TransportError "connection closed"), s)
        else (None, (s.1, conn :: s.2))
    | o' => ((healthy o' s.1).1, ((healthy o' s.1).2, s.2))
    end.

Definition broker_open (s : nat * list Connection) (conn : Connection) : bool :=
  bool_decide (conn ∉ s.2).

(** ** Tearing down more than once *)

(** A transport on which a connection is closed once: with [is_open]
    telling the connections that are open in a state of the transport, the
    close of an open connection succeeds and leaves it closed, the close of
    any other is answered with an error and changes nothing. *)
Definition closes_once {S : Type} (t : Transport S)
    (is_open : S -> Connection -> bool) : Prop :=
  forall (s : S) (conn : Connection),
    if is_open s conn
    then (t (ConnectionClose conn) s).1 = None /\
         is_open (t (ConnectionClose conn) s).2 conn = false
    else (exists err, (t (ConnectionClose conn) s).1 = Some err) /\
         (t (ConnectionClose conn) s).2 = s.

(** [Close] called [n] times in a row. *)
Fixpoint close_all (c : Controller) (n : nat) : Prog unit :=
  match n with
  | 0 => Ret tt
  | S n => _ ← Close c; close_all c n
  end.

(** [n] cancellation signals in a row on a subscription in state [st]. *)
Fixpoint signal_all (f : Cleanup) (n : nat) (st : SubscriptionState)
  : Prog SubscriptionState :=
  match n with
  | 0 => Ret st
  | S n => st ← Cancel f st; signal_all f n st
  end.

(** ** Messages and their deliveries *)

(** The message that belongs to a delivery: the payload is the body of the
    delivery, the headers are its table decoded, and the handler
    acknowledges that very delivery. *)
Definition forwarded_from (msg : AcknowledgeableBrokerMessage) (delivery : Delivery)
  : Prop :=
  msg.(abm_message).(Payload) = delivery.(dlv_Body) /\
  msg.(abm_message).(Headers) = delivery_headers delivery.(dlv_Headers) /\
  msg.(abm_handler).(handler_Delivery) = Some delivery.

(** ** Footprints *)

(** The calls that [Publish] may make, and those that [Subscribe] may make. *)
Definition publish_footprint (o : Op) : bool :=
  match o with
  | ConnectionChannel _ | QueueDeclare _ _ _ _ _ _ _
  | ChannelPublish _ _ _ _ _ _ | ChannelClose _ => true
  | _ => false
  end.

Definition subscribe_footprint (o : Op) : bool :=
  match o with
  | ConnectionChannel _ | QueueDeclare _ _ _ _ _ _ _
  | ChannelConsume _ _ _ _ _ _ _ _
  | WaitForCancellationAsync _ | GoForward _ => true
  | _ => false
  end.

Definition is_log (o : Op) : bool :=
  match o with LoggerError _ _ _ => true | _ => false end.

(** A consumer deciding several times on one message: [true] for
    [AckMessage], [false] for [NakMessage], one after the other. *)
Fixpoint decide_all (h : AcknowledgementHandler) (decisions : list bool) : Prog unit :=
  match decisions with
  | [] => Ret tt
  | ack :: decisions =>
      _ ← (if ack then AckMessage h else NakMessage h);
      decide_all h decisions
  end.

(** The options of this package that only set a field. *)
Definition sets_queueGroup (option : ControllerOption) : Prop :=
  exists name, option = WithQueueGroup name.

Definition sets_logger (option : ControllerOption) : Prop :=
  exists l, option = WithLogger l.

(** ** Running bodies *)

(** Case analysis on membership in a list that is written out. *)
Ltac elem_cases H :=
  rewrite ?elem_of_app, ?elem_of_cons, ?elem_of_nil in H;
  repeat match type of H with
         | _ \/ _ => destruct H as [H|H]
         end.

Ltac op_cases :=
  let o := fresh "o" in
  let Ho := fresh "Ho" in
  intros o Ho ?; elem_cases Ho;
  first [by destruct Ho | subst; first [discriminate | by eexists]].

Ltac opened_cases :=
  let e := fresh "e" in
  let He := fresh "He" in
  let Hopen := fresh "Hopen" in
  intros e ? He Hopen; elem_cases He;
  first [by destruct He
        | subst; cbn in Hopen; simplify_eq; rewrite ?elem_of_cons; by auto 10].

Lemma run_bind {S A B : Type} (t : Transport S) (p : Prog A) (f : A -> Prog B) (s : S) :
  run t (p ≫= f) s =
    let r1 := run t p s in
    match returned r1 with
    | Some a =>
        let r2 := run t (f a) (final r1) in
        mkRun (trace r1 ++ trace r2) (final r2) (returned r2)
    | None => mkRun (trace r1) (final r1) None
    end.
Proof.
  revert s. induction p as [r|o k IH|]; intros s.
  - cbn. by destruct (run t (f r) s).
  - change (Call o k ≫= f) with (Call o (fun x => k x ≫= f)).
    cbn. destruct (t o s) as [x s']. rewrite IH. cbn.
    by destruct (returned (run t (k x) s')).
  - reflexivity.
Qed.

(** *** The runs of [Publish] and [Subscribe] *)

Lemma Publish_run {S : Type} (t : Transport S) (s : S) (c : Controller)
    (conn : Connection) (queueName : string) (bm : BrokerMessage) :
  c.(connection) = Some conn ->
  PublishRun conn queueName bm (run t (Publish c queueName bm) s).
Proof.
  intros Hconn. unfold Publish. rewrite Hconn. cbn.
  destruct (t (ConnectionChannel conn) s) as [[ch|err] s1] eqn:E1; cbn.
  - destruct (t (QueueDeclare ch queueName false false false false None) s1)
      as [[[]|err] s2] eqn:E2; cbn.
    + destruct (t (ChannelPublish ch "" queueName false false _) s2)
        as [sent s3] eqn:E3; cbn.
      destruct sent as [err|]; cbn;
        destruct (t (ChannelClose ch) s3) as [closed s4] eqn:E4; cbn;
        by eapply publish_sent.
    + destruct (t (ChannelClose ch) s2) as [closed s3] eqn:E3; cbn.
      by eapply publish_no_queue.
  - by eapply publish_no_channel.
Qed.

Lemma Subscribe_run {S : Type} (t : Transport S) (s : S) (c : Controller)
    (conn : Connection) (ctx : Context) (queueName : string) :
  c.(connection) = Some conn ->
  SubscribeRun c conn ctx queueName (run t (Subscribe c ctx queueName) s).
Proof.
  intros Hconn. unfold Subscribe. rewrite Hconn. cbn.
  destruct (t (ConnectionChannel conn) s) as [[ch|err] s1] eqn:E1; cbn.
  - destruct (t (QueueDeclare ch queueName false false false false None) s1)
      as [[[]|err] s2] eqn:E2; cbn.
    + destruct (t (ChannelConsume ch queueName "" false false false false None) s2)
        as [[msgs|err] s3] eqn:E3; cbn.
      * destruct (t (WaitForCancellationAsync _) s3) as [[] s4] eqn:E4; cbn.
        destruct (t (GoForward msgs) s4) as [[] s5] eqn:E5; cbn.
        by eapply subscribe_started.
      * by eapply subscribe_no_consumer.
    + by eapply subscribe_no_queue.
  - by eapply subscribe_no_channel.
Qed.

(** Without a connection both panic before calling anything. *)
Lemma Publish_nil {S : Type} (t : Transport S) (s : S) (c : Controller)
    (queueName : string) (bm : BrokerMessage) :
  c.(connection) = None ->
  run t (Publish c queueName bm) s = mkRun [] s None.
Proof. intros Hnil. unfold Publish. by rewrite Hnil. Qed.

Lemma Subscribe_nil {S : Type} (t : Transport S) (s : S) (c : Controller)
    (ctx : Context) (queueName : string) :
  c.(connection) = None ->
  run t (Subscribe c ctx queueName) s = mkRun [] s None.
Proof. intros Hnil. unfold Subscribe. by rewrite Hnil. Qed.

(** The cleanup of a subscription: the consumer is cancelled, a failure of
    that is logged, and the channel is closed. *)
Lemma run_cleanup_ops {S : Type} (t : Transport S) (s : S) (f : Cleanup) :
  let r := run t (run_cleanup f) s in
  returned r = Some tt /\
  (ops r = [ChannelCancel f.(cleanup_channel) "" false;
            ChannelClose f.(cleanup_channel)] \/
   exists err,
     ops r = [ChannelCancel f.(cleanup_channel) "" false;
              LoggerError f.(cleanup_logger) f.(cleanup_ctx)
                ("failed to cancel consumer: " ++ Error err)%string;
              ChannelClose f.(cleanup_channel)]).
Proof.
  unfold run_cleanup, ops. cbn.
  destruct (t (ChannelCancel _ _ _) s) as [[err|] s1]; cbn.
  - destruct (t (LoggerError _ _ _) s1) as [[] s2]; cbn.
    destruct (t (ChannelClose _) s2) as [closed s3]; cbn.
    split; [done|]. right. by exists err.
  - destruct (t (ChannelClose _) s1) as [closed s2]; cbn.
    split; [done|]. by left.
Qed.

(** C3. Whatever the transport answers, every queue declaration that
    [Publish] or [Subscribe] makes names the destination with the flags
    durable, auto-delete, exclusive and no-wait all false and no arguments,
    and every send of [Publish] goes to the default exchange with the
    destination as routing key, content type "text/plain" and the payload
    as body.  These calls are made: on a controller with a connection both
    first open a channel; when that succeeds, the next call of both is the
    declaration on that channel; and when the declaration succeeds, the
    next call of [Publish] is the send, followed by the close of the
    channel.  Without a connection both panic before calling anything. *)
Theorem C3_fixed_wire_parameters {S : Type} (t : Transport S) (s : S)
    (c : Controller) (ctx : Context) (queueName : string) (bm : BrokerMessage) :
  let p := run t (Publish c queueName bm) s in
  let q := run t (Subscribe c ctx queueName) s in
  (forall o, o ∈ ops p ++ ops q -> is_declare o = true ->
     exists ch, o = QueueDeclare ch queueName false false false false None) /\
  (forall e ch, e ∈ trace p -> ev_opened e = Some ch ->
     QueueDeclare ch queueName false false false false None ∈ ops p) /\
  (forall e ch, e ∈ trace q -> ev_opened e = Some ch ->
     QueueDeclare ch queueName false false false false None ∈ ops q) /\
  (forall o, o ∈ ops p -> is_send o = true ->
     exists ch,
       o = ChannelPublish ch "" queueName false false
             {| pub_ContentType := "text/plain";
                pub_Body := bm.(Payload);
                pub_Headers := publish_headers bm.(Headers) |}) /\
  match c.(connection) with
  | None => p = mkRun [] s None /\ q = mkRun [] s None
  | Some conn =>
      let opened := t (ConnectionChannel conn) s in
      match opened.1 with
      | Err _ =>
          ops p = [ConnectionChannel conn] /\
          ops q = [ConnectionChannel conn]
      | Ok ch =>
          let declare := QueueDeclare ch queueName false false false false None in
          ops p =
            ConnectionChannel conn :: declare ::
              match (t declare opened.2).1 with
              | Ok _ =>
                  [ChannelPublish ch "" queueName false false
                     {| pub_ContentType := "text/plain";
                        pub_Body := bm.(Payload);
                        pub_Headers := publish_headers bm.(Headers) |};
                   ChannelClose ch]
              | Err _ => [ChannelClose ch]
              end /\
          take 2 (ops q) = [ConnectionChannel conn; declare]
      end
  end.
Proof.
  intros p q.
  destruct c.(connection) as [conn|] eqn:Hconn.
  2: { subst p q. unfold ops. rewrite Publish_nil, Subscribe_nil by done. cbn.
       repeat split; intros;
         match goal with H : _ ∈ [] |- _ => by apply elem_of_nil in H end. }
  assert (Hmade :
            let opened := t (ConnectionChannel conn) s in
            match opened.1 with
            | Err _ =>
                ops p = [ConnectionChannel conn] /\
                ops q = [ConnectionChannel conn]
            | Ok ch =>
                let declare :=
                  QueueDeclare ch queueName false false false false None in
                ops p =
                  ConnectionChannel conn :: declare ::
                    match (t declare opened.2).1 with
                    | Ok _ =>
                        [ChannelPublish ch "" queueName false false
                           {| pub_ContentType := "text/plain";
                              pub_Body := bm.(Payload);
                              pub_Headers := publish_headers bm.(Headers) |};
                         ChannelClose ch]
                    | Err _ => [ChannelClose ch]
                    end /\
                take 2 (ops q) = [ConnectionChannel conn; declare]
            end).
  { subst p q. unfold ops, Publish, Subscribe. rewrite Hconn. cbn.
    destruct (t (ConnectionChannel conn) s) as [[ch|err] s1]; cbn; [|done].
    destruct (t (QueueDeclare ch queueName false false false false None) s1)
      as [[[]|err] s2]; cbn.
    - split; [|done].
      destruct (t (ChannelPublish ch "" queueName false false _) s2) as [[err|] s3];
        cbn; by destruct (t (ChannelClose ch) s3).
    - split; [|done]. by destruct (t (ChannelClose ch) s2). }
  unfold ops in *.
  destruct (Publish_run t s c conn queueName bm Hconn) as
    [err Hp _ | ch err closed Hp _ | ch sent closed Hp _]; fold p in Hp;
    destruct (Subscribe_run t s c conn ctx queueName Hconn) as
    [err' Hq _ | ch' err' Hq _ | ch' err' Hq _ | ch' msgs Hq _]; fold q in Hq;
    (split; [|split; [|split; [|split; [|exact Hmade]]]]);
    clear Hmade; rewrite ?Hp, ?Hq; cbn; clear Hp Hq;
    first [op_cases | opened_cases].
Qed.

(** C4. [Publish] on a controller with a connection returns, and returns
    an error exactly when opening the channel, declaring the queue or
    sending came back with an error, the error being that one (wrapped, for
    the declaration); after the failing call nothing more is called but the
    close of the channel; and whenever a channel was opened, closing it is
    the last call before [Publish] returns.  No step is left out: a run is
    the failed open alone; or the open, the failed declaration and the
    close; or the open, the declaration, the send and the close, and only
    this last one can return without an error, when the send did. *)
Theorem C4_Publish_errors {S : Type} (t : Transport S) (s : S) (c : Controller)
    (conn : Connection) (queueName : string) (bm : BrokerMessage) :
  c.(connection) = Some conn ->
  let r := run t (Publish c queueName bm) s in
  (exists res : option error,
      returned r = Some res /\
      (forall err, res = Some err ->
         exists e cause, e ∈ trace r /\ ev_error e = Some cause /\
           (is_channel_open (ev_op e) || is_declare (ev_op e)
              || is_send (ev_op e)) = true /\
           root_cause err = root_cause cause) /\
      (forall e cause, e ∈ trace r -> ev_error e = Some cause ->
         (is_channel_open (ev_op e) || is_declare (ev_op e)
            || is_send (ev_op e)) = true ->
         exists err, res = Some err /\ root_cause err = root_cause cause)) /\
  (forall before e after cause,
      trace r = before ++ e :: after -> ev_error e = Some cause ->
      is_channel_close (ev_op e) = false ->
      forall e', e' ∈ after -> is_channel_close (ev_op e') = true) /\
  (forall e ch, e ∈ trace r -> ev_opened e = Some ch ->
      last (ops r) = Some (ChannelClose ch)) /\
  ((exists err,
       trace r = [Ev (ConnectionChannel conn) (Err err)] /\
       returned r = Some (Some err)) \/
   (exists ch err closed,
       trace r = [Ev (ConnectionChannel conn) (Ok ch);
                  Ev (QueueDeclare ch queueName false false false false None)
                    (Err err);
                  Ev (ChannelClose ch) closed] /\
       returned r = Some (Some (Errorf "failed to declare queue" err))) \/
   (exists ch sent closed,
       trace r = [Ev (ConnectionChannel conn) (Ok ch);
                  Ev (QueueDeclare ch queueName false false false false None)
                    (Ok tt);
                  Ev (ChannelPublish ch "" queueName false false
                        {| pub_ContentType := "text/plain";
                           pub_Body := bm.(Payload);
                           pub_Headers := publish_headers bm.(Headers) |}) sent;
                  Ev (ChannelClose ch) closed] /\
       returned r = Some sent)).
Proof.
  intros Hconn r.
  destruct (Publish_run t s c conn queueName bm Hconn) as
    [err Htr Hret | ch err closed Htr Hret | ch sent closed Htr Hret];
    fold r in Htr, Hret; unfold ops; rewrite Htr, Hret; clear Htr Hret.
  - (* the channel could not be opened *)
    split; [|split; [|split]].
    + exists (Some err). split; [done|]. split.
      * intros ? [= <-]. eexists _, err. split; [by left|]. by cbn.
      * intros e cause ->%list_elem_of_singleton [= <-] _. by eexists.
    + intros before e after cause Happ Herr Hkind e' He'.
      destruct before as [|? [|]]; cbn in Happ; simplify_eq.
      by apply elem_of_nil in He'.
    + by intros e ch' ->%list_elem_of_singleton.
    + left. by exists err.
  - (* the queue could not be declared *)
    split; [|split; [|split]].
    + exists (Some (Errorf "failed to declare queue" err)). split; [done|]. split.
      * intros ? [= <-]. eexists _, err. split; [right; by left|]. by cbn.
      * intros e cause He Herr Hkind.
        rewrite !elem_of_cons, elem_of_nil in He.
        destruct He as [->|[->|[->|[]]]]; cbn in Herr, Hkind; simplify_eq.
        by eexists.
    + intros before e after cause Happ Herr Hkind e' He'.
      destruct before as [|? [|? [|? [|]]]]; cbn in Happ; simplify_eq;
        cbn in Herr, Hkind; simplify_eq.
      by apply list_elem_of_singleton in He' as ->.
    + intros e ch' He Hopen.
      rewrite !elem_of_cons, elem_of_nil in He.
      destruct He as [->|[->|[->|[]]]]; cbn in Hopen; by simplify_eq.
    + right. left. by exists ch, err, closed.
  - (* the message went to the transport *)
    split; [|split; [|split]].
    + exists sent. split; [done|]. split.
      * intros err ->. eexists _, err. split; [do 2 right; by left|]. by cbn.
      * intros e cause He Herr Hkind.
        rewrite !elem_of_cons, elem_of_nil in He.
        destruct He as [->|[->|[->|[->|[]]]]]; cbn in Herr, Hkind; simplify_eq.
        by eexists.
    + intros before e after cause Happ Herr Hkind e' He'.
      destruct before as [|? [|? [|? [|? [|]]]]]; cbn in Happ; simplify_eq;
        cbn in Herr, Hkind; simplify_eq.
      by apply list_elem_of_singleton in He' as ->.
    + intros e ch' He Hopen.
      rewrite !elem_of_cons, elem_of_nil in He.
      destruct He as [->|[->|[->|[->|[]]]]]; cbn in Hopen; by simplify_eq.
    + do 2 right. by exists ch, sent, closed.
Qed.

(** C5. [Subscribe] on a controller with a connection returns, and returns
    an error exactly when opening the channel, declaring the queue or
    starting to consume came back with an error, the error being that one
    (wrapped, for the last two).  When it returns a subscription, the three
    steps were made in that order and succeeded, the cancellation task and
    the forwarding goroutine were started last, [Subscribe] itself did not
    close the channel, and the cleanup it registered closes that very
    channel as its last call. *)
Theorem C5_Subscribe_errors {S : Type} (t : Transport S) (s : S) (c : Controller)
    (conn : Connection) (ctx : Context) (queueName : string) :
  c.(connection) = Some conn ->
  let r := run t (Subscribe c ctx queueName) s in
  exists res : result BrokerChannelSubscription,
    returned r = Some res /\
    (forall err, res = Err err ->
       exists e cause, e ∈ trace r /\ ev_error e = Some cause /\
         (is_channel_open (ev_op e) || is_declare (ev_op e)
            || is_consume (ev_op e)) = true /\
         root_cause err = root_cause cause) /\
    (forall e cause, e ∈ trace r -> ev_error e = Some cause ->
       exists err, res = Err err /\ root_cause err = root_cause cause) /\
    (forall sub, res = Ok sub ->
       exists (ch : Channel) (msgs : DeliveryChan) (f : Cleanup),
         trace r =
           [Ev (ConnectionChannel conn) (Ok ch);
            Ev (QueueDeclare ch queueName false false false false None) (Ok tt);
            Ev (ChannelConsume ch queueName "" false false false false None) (Ok msgs);
            Ev (WaitForCancellationAsync f) tt;
            Ev (GoForward msgs) tt] /\
         (forall o, o ∈ ops r -> is_channel_close o = false) /\
         f.(cleanup_channel) = ch /\
         (forall (S' : Type) (t' : Transport S') (s' : S'),
             last (ops (run t' (run_cleanup f) s')) = Some (ChannelClose ch))).
Proof.
  intros Hconn r.
  destruct (Subscribe_run t s c conn ctx queueName Hconn) as
    [err Htr Hret | ch err Htr Hret | ch err Htr Hret | ch msgs Htr Hret];
    fold r in Htr, Hret; unfold ops; rewrite Htr, Hret; clear Htr Hret;
    eexists; (split; [done|]); (split; [|split]); try done.
  - intros ? [= <-]. eexists _, err. split; [by left|]. by cbn.
  - intros e cause He Herr. elem_cases He; [|done]. subst.
    cbn in Herr. simplify_eq. by eexists.
  - intros ? [= <-]. eexists _, err. split; [right; by left|]. by cbn.
  - intros e cause He Herr. elem_cases He; [| |done]; subst;
      cbn in Herr; simplify_eq. by eexists.
  - intros ? [= <-]. eexists _, err. split; [do 2 right; by left|]. by cbn.
  - intros e cause He Herr. elem_cases He; [| | |done]; subst;
      cbn in Herr; simplify_eq. by eexists.
  - intros e cause He Herr. elem_cases He; [| | | | |done]; subst;
      cbn in Herr; simplify_eq.
  - intros sub _. eexists ch, msgs, _. split; [done|]. split; [|split; [done|]].
    + intros o Ho. cbn in Ho. elem_cases Ho; [| | | | |done]; by subst.
    + intros S' t' s'.
      destruct (run_cleanup_ops t' s' (mkCleanup c.(logger) ctx ch))
        as [_ [Hops | [err Hops]]]; unfold ops in Hops; by rewrite Hops.
Qed.

(** *** Options *)

Lemma apply_options_one {S : Type} (t : Transport S) (s : S)
    (option : ControllerOption) (c : Controller) :
  run t (apply_options [option] c) s =
    let r1 := run t (option c) s in
    mkRun (trace r1) (final r1)
      match returned r1 with
      | Some (c1, None) => Some (Ok c1)
      | Some (_, Some err) =>
          Some (Err (Errorf "could not apply option to controller" err))
      | None => None
      end.
Proof.
  cbn [apply_options]. rewrite run_bind. cbn.
  destruct (returned (run t (option c) s)) as [[c1 [err|]]|]; cbn;
    by rewrite ?app_nil_r.
Qed.

Lemma apply_options_app {S : Type} (t : Transport S)
    (before after : list ControllerOption) (c : Controller) (s : S) :
  run t (apply_options (before ++ after) c) s =
    let r1 := run t (apply_options before c) s in
    match returned r1 with
    | Some (Ok c1) =>
        let r2 := run t (apply_options after c1) (final r1) in
        mkRun (trace r1 ++ trace r2) (final r2) (returned r2)
    | _ => r1
    end.
Proof.
  revert c s. induction before as [|option before IH]; intros c s.
  - cbn. by destruct (run t (apply_options after c) s).
  - cbn [app apply_options]. rewrite !run_bind. cbn zeta.
    destruct (run t (option c) s) as [tr1 s1 [[c1 [err|]]|]]; cbn.
    + by rewrite app_nil_r.
    + rewrite IH. cbn zeta.
      destruct (run t (apply_options before c1) s1) as [tr2 s2 [[c2|err]|]];
        cbn; by rewrite ?app_assoc.
    + done.
Qed.


(** C7. For a handler bound to a delivery, as every handler made by the
    forwarding goroutine is, [AckMessage] and [NakMessage] make one call
    each, the acknowledgement of that delivery alone and its rejection with
    requeue false, log nothing, and return normally whatever the transport
    answered. *)
Theorem C7_ack_nak_fire_and_forget {S : Type} (t : Transport S) (s : S)
    (h : AcknowledgementHandler) (delivery : Delivery) :
  h.(handler_Delivery) = Some delivery ->
  let a := run t (AckMessage h) s in
  let n := run t (NakMessage h) s in
  (forall d, (forward_message d).(abm_handler).(handler_Delivery) = Some d) /\
  a = mkRun [Ev (DeliveryAck delivery false) (t (DeliveryAck delivery false) s).1]
        (t (DeliveryAck delivery false) s).2 (Some tt) /\
  n = mkRun [Ev (DeliveryNack delivery false false)
               (t (DeliveryNack delivery false false) s).1]
        (t (DeliveryNack delivery false false) s).2 (Some tt).
Proof.
  intros Hbound. unfold AckMessage, NakMessage. rewrite Hbound. cbn.
  split; [done|]. split.
  - by destruct (t (DeliveryAck delivery false) s).
  - by destruct (t (DeliveryNack delivery false false) s).
Qed.

(** C9. Two controllers that differ at most in their queue group behave
    alike: on the same transport, [Publish] and [Subscribe] make the same
    calls with the same arguments, get the same answers, leave the
    transport in the same state and return the same value. *)
Theorem C9_queueGroup_not_observable {S : Type} (t : Transport S) (s : S)
    (c1 c2 : Controller) (ctx : Context) (queueName : string) (bm : BrokerMessage) :
  c1.(url) = c2.(url) ->
  c1.(connection) = c2.(connection) ->
  c1.(logger) = c2.(logger) ->
  run t (Publish c1 queueName bm) s = run t (Publish c2 queueName bm) s /\
  run t (Subscribe c1 ctx queueName) s = run t (Subscribe c2 ctx queueName) s.
Proof.
  destruct c1 as [u1 conn1 l1 g1], c2 as [u2 conn2 l2 g2]. cbn.
  intros -> -> ->. by split.
Qed.

(** C10. [Close] on a controller without a connection calls nothing and
    returns normally. *)
Theorem C10_Close_without_connection {S : Type} (t : Transport S) (s : S)
    (c : Controller) :
  c.(connection) = None ->
  run t (Close c) s = mkRun [] s (Some tt).
Proof. intros Hnil. unfold Close. by rewrite Hnil. Qed.

(** *** Tearing down again *)

Lemma Close_run {St : Type} (t : Transport St) (s : St) (c : Controller)
    (conn : Connection) :
  c.(connection) = Some conn ->
  run t (Close c) s =
    mkRun [Ev (ConnectionClose conn) (t (ConnectionClose conn) s).1]
      (t (ConnectionClose conn) s).2 (Some tt).
Proof.
  intros Hconn. unfold Close. rewrite Hconn. cbn.
  by destruct (t (ConnectionClose conn) s).
Qed.

Lemma close_all_run {St : Type} (t : Transport St) (s : St) (c : Controller)
    (conn : Connection) (n : nat) :
  c.(connection) = Some conn ->
  run t (close_all c (S n)) s =
    let rest := run t (close_all c n) (t (ConnectionClose conn) s).2 in
    mkRun (Ev (ConnectionClose conn) (t (ConnectionClose conn) s).1 :: trace rest)
      (final rest) (returned rest).
Proof.
  intros Hconn. cbn [close_all].
  change (run t (?p ≫= ?f) s) with (run t (bind f p) s).
  rewrite run_bind, (Close_run t s c conn Hconn). by cbn.
Qed.

(** However often [Close] is called, it returns, and every call asks for
    the connection to be closed. *)
Lemma close_all_ops {St : Type} (t : Transport St) (s : St) (c : Controller)
    (conn : Connection) (n : nat) :
  c.(connection) = Some conn ->
  returned (run t (close_all c n) s) = Some tt /\
  ops (run t (close_all c n) s) = replicate n (ConnectionClose conn).
Proof.
  intros Hconn. revert s. induction n as [|n IH]; intros s; [done|].
  rewrite (close_all_run t s c conn n Hconn). unfold ops. cbn.
  destruct (IH (t (ConnectionClose conn) s).2) as [Hret Hops].
  unfold ops in Hops. split; [exact Hret|]. f_equal. exact Hops.
Qed.

(** Once the connection is closed, every further call is refused and
    changes nothing. *)
Lemma close_all_closed {St : Type} (t : Transport St)
    (is_open : St -> Connection -> bool) (s : St) (c : Controller)
    (conn : Connection) (n : nat) :
  closes_once t is_open ->
  c.(connection) = Some conn ->
  is_open s conn = false ->
  exists refusals : list error,
    length refusals = n /\
    run t (close_all c n) s =
      mkRun (map (fun err => Ev (ConnectionClose conn) (Some err)) refusals)
        s (Some tt).
Proof.
  intros Honce Hconn Hclosed. induction n as [|n IH].
  - by exists [].
  - destruct IH as (refusals & Hlen & Hrun).
    pose proof (Honce s conn) as Hcall. rewrite Hclosed in Hcall.
    destruct Hcall as [[err Herr] Hstate].
    exists (err :: refusals). split; [by rewrite <- Hlen|].
    rewrite (close_all_run t s c conn n Hconn). cbn zeta.
    rewrite Hstate, Hrun, Herr. by cbn.
Qed.

(** A subscription that is closed stays closed and nothing is called. *)
Lemma signal_all_Closed {St : Type} (t : Transport St) (s : St) (f : Cleanup) (n : nat) :
  run t (signal_all f n Closed) s = mkRun [] s (Some Closed).
Proof. induction n as [|n IH]; [done|]. cbn [signal_all Cancel]. apply IH. Qed.

(** C8. Tearing down again and again returns normally every time, and
    releases once.  [Close], called once and then [n] more times on a
    controller with a connection, returns; it keeps no record of having
    run, so each call asks the transport to close the connection and
    discards the answer.  On a transport that closes a connection once,
    answering the close of a connection already closed with an error and
    doing nothing, the first of these calls closes the connection and the
    [n] others are refused: the connection is released once and the
    transport is left as after a single [Close].  A subscription signalled
    once and then [n] more times runs its cleanup once: one consumer
    cancellation and one close, of the channel of the subscription. *)
Theorem C8_teardown_idempotent {St : Type} (t : Transport St) (s : St)
    (c : Controller) (conn : Connection) (f : Cleanup) (n : nat) :
  c.(connection) = Some conn ->
  let closed := run t (close_all c (S n)) s in
  let cancelled := run t (signal_all f (S n) Active) s in
  let cleaned := run t (run_cleanup f) s in
  returned closed = Some tt /\
  ops closed = replicate (S n) (ConnectionClose conn) /\
  (forall is_open : St -> Connection -> bool,
      closes_once t is_open ->
      is_open s conn = true ->
      (exists refusals : list error,
          length refusals = n /\
          trace closed =
            Ev (ConnectionClose conn) None ::
              map (fun err => Ev (ConnectionClose conn) (Some err)) refusals) /\
      final closed = final (run t (Close c) s) /\
      is_open (final closed) conn = false) /\
  cancelled = mkRun (trace cleaned) (final cleaned) (Some Closed) /\
  List.filter is_consumer_cancel (ops cancelled)
    = [ChannelCancel f.(cleanup_channel) "" false] /\
  List.filter is_channel_close (ops cancelled)
    = [ChannelClose f.(cleanup_channel)].
Proof.
  intros Hconn closed cancelled cleaned.
  assert (Hcancelled :
            cancelled = mkRun (trace cleaned) (final cleaned) (Some Closed)).
  { subst cancelled cleaned. cbn [signal_all Cancel].
    change (run t (?p ≫= ?k) s) with (run t (bind k p) s).
    rewrite run_bind. cbn zeta.
    change (_ ← run_cleanup f; Ret Closed)
      with (run_cleanup f ≫= fun _ => Ret Closed).
    rewrite run_bind. cbn zeta.
    destruct (run_cleanup_ops t s f) as [Hret _]. cbn zeta in Hret.
    rewrite Hret. cbn. rewrite signal_all_Closed. cbn.
    by rewrite !app_nil_r. }
  destruct (close_all_ops t s c conn (S n) Hconn) as [Hret Hops].
  split; [exact Hret|]. split; [exact Hops|].
  split; [|split; [exact Hcancelled|]].
  - intros is_open Honce Hopen.
    pose proof (Honce s conn) as Hfirst. rewrite Hopen in Hfirst.
    destruct Hfirst as [Hreleased Hclosed].
    destruct (close_all_closed t is_open (t (ConnectionClose conn) s).2 c conn n
                Honce Hconn Hclosed) as (refusals & Hlen & Hrest).
    subst closed. rewrite (close_all_run t s c conn n Hconn). cbn zeta.
    rewrite Hrest, (Close_run t s c conn Hconn). cbn [trace final].
    split; [|by split].
    exists refusals. split; [exact Hlen|]. by rewrite Hreleased.
  - rewrite Hcancelled. unfold ops. cbn [trace].
    fold (ops cleaned). subst cleaned.
    destruct (run_cleanup_ops t s f) as [_ [-> | [err ->]]]; by split.
Qed.

(** *** The forwarding pipeline *)

Section Pipeline.

Implicit Types (p : Pipeline) (who : Turn) (schedule : list Turn).

Lemma pipeline_step_contents who p p' :
  pipeline_step who p = Some p' ->
  pipeline_contents p' = pipeline_contents p.
Proof.
  destruct p as [msgs transmitting [[cap buf] cancel] received].
  unfold pipeline_step, pipeline_contents, TransmitReceivedMessage, ReceiveMessage.
  destruct who; cbn -[Nat.ltb].
  - destruct transmitting as [msg|].
    + destruct (length buf <? cap)%nat; intros [= <-]; cbn.
      by rewrite <- !app_assoc.
    + destruct msgs as [|delivery msgs]; intros [= <-]; by cbn.
  - destruct buf as [|msg buf]; intros [= <-]; cbn.
    by rewrite <- !app_assoc.
Qed.

Lemma pipeline_step_capacity who p p' :
  pipeline_step who p = Some p' ->
  p'.(pl_sub).(sub_messages).(chan_cap) = p.(pl_sub).(sub_messages).(chan_cap).
Proof.
  destruct p as [msgs transmitting [[cap buf] cancel] received].
  unfold pipeline_step, TransmitReceivedMessage, ReceiveMessage.
  destruct who; cbn -[Nat.ltb].
  - destruct transmitting as [msg|].
    + by destruct (length buf <? cap)%nat; intros [= <-].
    + by destruct msgs as [|delivery msgs]; intros [= <-].
  - by destruct buf as [|msg buf]; intros [= <-].
Qed.

Lemma pipeline_step_bounded who p p' :
  pipeline_step who p = Some p' ->
  length p.(pl_sub).(sub_messages).(chan_buf)
    <= p.(pl_sub).(sub_messages).(chan_cap) ->
  length p'.(pl_sub).(sub_messages).(chan_buf)
    <= p'.(pl_sub).(sub_messages).(chan_cap).
Proof.
  destruct p as [msgs transmitting [[cap buf] cancel] received].
  unfold pipeline_step, TransmitReceivedMessage, ReceiveMessage.
  destruct who; cbn -[Nat.ltb].
  - destruct transmitting as [msg|].
    + destruct (Nat.ltb_spec (length buf) cap); intros [= <-]; cbn.
      rewrite length_app. cbn. lia.
    + by destruct msgs as [|delivery msgs]; intros [= <-].
  - destruct buf as [|msg buf]; intros [= <-]; cbn. lia.
Qed.

(** The three together, along any schedule. *)
Lemma pipeline_run_invariant schedule p :
  length p.(pl_sub).(sub_messages).(chan_buf)
    <= p.(pl_sub).(sub_messages).(chan_cap) ->
  let p' := pipeline_run schedule p in
  pipeline_contents p' = pipeline_contents p /\
  p'.(pl_sub).(sub_messages).(chan_cap) = p.(pl_sub).(sub_messages).(chan_cap) /\
  length p'.(pl_sub).(sub_messages).(chan_buf)
    <= p'.(pl_sub).(sub_messages).(chan_cap).
Proof.
  revert p. induction schedule as [|who schedule IH]; intros p Hbound p'; [done|].
  subst p'. cbn [pipeline_run].
  destruct (pipeline_step who p) as [p1|] eqn:Hstep; unfold default; cbn [from_option id].
  - destruct (IH p1) as (Hcontents & Hcap & Hlen).
    { by eapply pipeline_step_bounded. }
    split; [|split; [|done]].
    + by rewrite Hcontents, (pipeline_step_contents _ _ _ Hstep).
    + by rewrite Hcap, (pipeline_step_capacity _ _ _ Hstep).
  - by apply IH.
Qed.

(** With room for one message there is always a move that brings the
    pipeline closer to the end. *)
Lemma pipeline_progress p :
  0 < p.(pl_sub).(sub_messages).(chan_cap) ->
  0 < pipeline_work p ->
  exists who p', pipeline_step who p = Some p' /\ pipeline_work p' < pipeline_work p.
Proof.
  destruct p as [msgs transmitting [[cap buf] cancel] received].
  unfold pipeline_step, pipeline_work, TransmitReceivedMessage, ReceiveMessage.
  cbn -[Nat.ltb]. intros Hcap Hwork.
  destruct buf as [|msg buf].
  - destruct transmitting as [msg|].
    + exists Forwarder. cbn -[Nat.ltb]. destruct (Nat.ltb_spec 0 cap); [|lia].
      eexists. split; [done|]. cbn. lia.
    + destruct msgs as [|delivery msgs]; [cbn in Hwork; lia|].
      exists Forwarder. eexists. split; [done|]. cbn. lia.
  - exists Consumer. eexists. split; [done|]. cbn. lia.
Qed.

Lemma pipeline_run_app schedule1 schedule2 p :
  pipeline_run (schedule1 ++ schedule2) p
  = pipeline_run schedule2 (pipeline_run schedule1 p).
Proof.
  revert p. induction schedule1 as [|who schedule1 IH]; intros p; [done|].
  cbn [app pipeline_run]. apply IH.
Qed.

Lemma pipeline_done p :
  pipeline_work p = 0 -> p.(pl_received) = pipeline_contents p.
Proof.
  destruct p as [msgs transmitting [[cap buf] cancel] received].
  unfold pipeline_work, pipeline_contents. cbn. intros Hwork.
  destruct msgs; [|cbn in Hwork; lia].
  destruct transmitting; [cbn in Hwork; lia|].
  destruct buf; [|cbn in Hwork; lia].
  cbn. by rewrite app_nil_r.
Qed.

Lemma pipeline_completes p :
  0 < p.(pl_sub).(sub_messages).(chan_cap) ->
  exists schedule,
    (pipeline_run schedule p).(pl_received) = pipeline_contents p.
Proof.
  remember (pipeline_work p) as n eqn:Hn. revert p Hn.
  induction (lt_wf n) as [n _ IH]. intros p -> Hcap.
  destruct (Nat.eq_dec (pipeline_work p) 0) as [Hdone|Hmore].
  - exists []. by apply pipeline_done.
  - destruct (pipeline_progress p) as (who & p' & Hstep & Hless); [done|lia|].
    destruct (IH _ Hless p' eq_refl) as [schedule Hrun].
    { by rewrite (pipeline_step_capacity _ _ _ Hstep). }
    exists (who :: schedule). cbn [pipeline_run]. rewrite Hstep.
    unfold default; cbn [from_option id].
    by rewrite Hrun, (pipeline_step_contents _ _ _ Hstep).
Qed.

End Pipeline.

(** The message made from a delivery belongs to it, and to no other. *)
Lemma forward_message_forwarded (deliveries : list Delivery) :
  Forall2 forwarded_from (map forward_message deliveries) deliveries.
Proof.
  induction deliveries as [|delivery deliveries IH]; constructor; [|exact IH].
  by repeat split.
Qed.

Lemma forward_message_inj (d1 d2 : Delivery) :
  forward_message d1 = forward_message d2 -> d1 = d2.
Proof.
  intros Heq.
  apply (f_equal (fun msg => msg.(abm_handler).(handler_Delivery))) in Heq.
  cbn in Heq. by simplify_eq.
Qed.

(** C2. Let [Subscribe] return a subscription and the transport deliver
    any sequence of deliveries on it.  The buffer of the subscription has
    capacity [BrokerMessagesQueueSize].  The message the goroutine makes
    from a delivery carries the body of the delivery as payload, its table
    decoded as headers, and a handler for that very delivery, so different
    deliveries give different messages.  However the forwarding goroutine
    and the consumer take turns, the buffer never holds more than its
    capacity, and the messages received, those in the buffer, the one being
    transmitted and those still to be made from the deliveries not yet
    taken are, in this order, the messages of the deliveries in the order
    of arrival: so what the consumer has received is always, message by
    message, what belongs to an initial part of the deliveries, nothing
    reordered and nothing left out.  When the capacity is not zero, every
    such state can be continued until the consumer has received, in order,
    the message of every delivery. *)
Theorem C2_forwarding_is_fifo {S : Type} (t : Transport S) (s : S) (c : Controller)
    (ctx : Context) (queueName : string) (sub : BrokerChannelSubscription)
    (deliveries : list Delivery) (schedule : list Turn) :
  returned (run t (Subscribe c ctx queueName) s) = Some (Ok sub) ->
  let p := pipeline_run schedule (pipeline_start sub deliveries) in
  sub.(sub_messages).(chan_cap) = BrokerMessagesQueueSize /\
  p.(pl_sub).(sub_messages).(chan_cap) = BrokerMessagesQueueSize /\
  length p.(pl_sub).(sub_messages).(chan_buf) <= BrokerMessagesQueueSize /\
  pipeline_contents p = map forward_message deliveries /\
  p.(pl_received) `prefix_of` map forward_message deliveries /\
  (forall delivery : Delivery,
      (forward_message delivery).(abm_message).(Payload) = delivery.(dlv_Body) /\
      (forward_message delivery).(abm_message).(Headers)
        = delivery_headers delivery.(dlv_Headers) /\
      (forward_message delivery).(abm_handler).(handler_Delivery) = Some delivery) /\
  (forall d1 d2 : Delivery, forward_message d1 = forward_message d2 -> d1 = d2) /\
  (exists taken rest : list Delivery,
      deliveries = taken ++ rest /\
      Forall2 forwarded_from p.(pl_received) taken) /\
  (0 < BrokerMessagesQueueSize ->
   exists more,
     let received :=
       (pipeline_run (schedule ++ more) (pipeline_start sub deliveries)).(pl_received) in
     received = map forward_message deliveries /\
     Forall2 forwarded_from received deliveries).
Proof.
  intros Hsub p.
  assert (Hstart : sub = NewBrokerChannelSubscription
                     (make_chan AcknowledgeableBrokerMessage BrokerMessagesQueueSize)
                     (make_chan unit 1)).
  { destruct c.(connection) as [conn|] eqn:Hconn.
    - destruct (Subscribe_run t s c conn ctx queueName Hconn) as
        [err _ Hret | ch err _ Hret | ch err _ Hret | ch msgs _ Hret];
        rewrite Hret in Hsub; by simplify_eq.
    - by rewrite Subscribe_nil in Hsub. }
  destruct (pipeline_run_invariant schedule (pipeline_start sub deliveries))
    as (Hcontents & Hcap & Hlen).
  { subst sub. cbn. lia. }
  fold p in Hcontents, Hcap, Hlen.
  assert (Hall : pipeline_contents (pipeline_start sub deliveries)
                 = map forward_message deliveries) by by subst sub.
  assert (Hcap0 : sub.(sub_messages).(chan_cap) = BrokerMessagesQueueSize)
    by by subst sub.
  rewrite Hall in Hcontents. cbn [pipeline_start pl_sub] in Hcap.
  rewrite Hcap0 in Hcap. rewrite Hcap in Hlen.
  assert (Hprefix : p.(pl_received) `prefix_of` map forward_message deliveries).
  { rewrite <- Hcontents. unfold pipeline_contents. by eexists. }
  do 5 (split; [done|]).
  split; [by intros delivery|].
  split; [exact forward_message_inj|].
  split.
  - destruct Hprefix as [later Hlater].
    destruct (map_eq_app _ _ _ _ Hlater) as (taken & rest & -> & Htaken & _).
    exists taken, rest. split; [done|].
    rewrite <- Htaken. apply forward_message_forwarded.
  - intros Hpos. destruct (pipeline_completes p) as [more Hmore]; [lia|].
    exists more. cbn zeta. rewrite pipeline_run_app. fold p.
    rewrite Hmore, Hcontents.
    split; [done|apply forward_message_forwarded].
Qed.

(** *** What the two loops compute *)

Lemma publish_headers_lookup (h : gmap string bytes) (k : string) :
  publish_headers h !! k = BytesValue <$> h !! k.
Proof.
  unfold publish_headers. revert k.
  apply (map_fold_weak_ind
           (fun (r : gmap string TableValue) (m : gmap string bytes) =>
              forall k, r !! k = BytesValue <$> m !! k)).
  - intros k. by rewrite !lookup_empty.
  - intros i x m r _ IH k.
    destruct (decide (i = k)) as [->|Hne].
    + by rewrite !lookup_insert_eq.
    + rewrite !lookup_insert_ne by done. apply IH.
Qed.

Lemma delivery_headers_lookup (t : gmap string TableValue) (k : string) :
  delivery_headers t !! k = header_bytes <$> t !! k.
Proof.
  unfold delivery_headers. revert k.
  apply (map_fold_weak_ind
           (fun (r : gmap string bytes) (m : gmap string TableValue) =>
              forall k, r !! k = header_bytes <$> m !! k)).
  - intros k. by rewrite !lookup_empty.
  - intros i x m r _ IH k.
    destruct (decide (i = k)) as [->|Hne].
    + by rewrite !lookup_insert_eq.
    + rewrite !lookup_insert_ne by done. apply IH.
Qed.

(** C1. Publishing encodes a header mapping into the wire table with one
    entry per key, each value stored unchanged as a byte sequence; the
    subscribe side decodes a wire table key by key, keeping byte sequences,
    taking the bytes of strings, and taking the bytes of the default
    rendering of anything else; decoding an encoded mapping gives the
    mapping back, so a delivery that carries the table of a published
    message is forwarded with the headers and the payload published. *)
Theorem C1_header_codec :
  (forall (h : gmap string bytes) (k : string),
      publish_headers h !! k =
        match h !! k with
        | Some v => Some (BytesValue v)
        | None => None
        end) /\
  (forall h : gmap string bytes, size (publish_headers h) = size h) /\
  (forall (t : gmap string TableValue) (k : string),
      delivery_headers t !! k =
        match t !! k with
        | Some (BytesValue v) => Some v
        | Some (StringValue s) => Some (bytes_of_string s)
        | Some (OtherValue o) => Some (bytes_of_string (Sprintf_v o))
        | None => None
        end) /\
  (forall h : gmap string bytes, delivery_headers (publish_headers h) = h) /\
  (forall (tag : nat) (h : gmap string bytes) (body : bytes),
      (forward_message
         {| dlv_Tag := tag; dlv_Headers := publish_headers h; dlv_Body := body |})
        .(abm_message)
      = {| Headers := h; Payload := body |}).
Proof.
  assert (Hfmap : forall h : gmap string bytes,
             publish_headers h = BytesValue <$> h).
  { intros h. apply map_eq. intros k.
    by rewrite publish_headers_lookup, lookup_fmap. }
  assert (Hround : forall h : gmap string bytes,
             delivery_headers (publish_headers h) = h).
  { intros h. apply map_eq. intros k.
    rewrite delivery_headers_lookup, publish_headers_lookup.
    by destruct (h !! k). }
  repeat split.
  - intros h k. rewrite publish_headers_lookup. by destruct (h !! k).
  - intros h. rewrite Hfmap. apply map_size_fmap.
  - intros t k. rewrite delivery_headers_lookup.
    by destruct (t !! k) as [[v|s|o]|].
  - apply Hround.
  - intros tag h body. unfold forward_message. cbn. by rewrite Hround.
Qed.

(** *** Channels opened and closed *)

(** X1. [Publish] calls nothing but [Channel], [QueueDeclare], [Publish]
    and [Close] of a channel, and closes exactly the channels it opened;
    [Subscribe] calls nothing but [Channel], [QueueDeclare], [Consume] and
    the start of its two tasks: it never closes a channel, so when it fails
    after the channel is open, that channel is left open. *)
Theorem X1_channel_balance {S : Type} (t : Transport S) (s : S) (c : Controller)
    (ctx : Context) (queueName : string) (bm : BrokerMessage) :
  let p := run t (Publish c queueName bm) s in
  let q := run t (Subscribe c ctx queueName) s in
  (forall o, o ∈ ops p -> publish_footprint o = true) /\
  map ChannelClose (omap ev_opened (trace p))
    = List.filter is_channel_close (ops p) /\
  (forall o, o ∈ ops q -> subscribe_footprint o = true) /\
  (forall e ch err, returned q = Some (Err err) -> e ∈ trace q ->
     ev_opened e = Some ch -> ChannelClose ch ∉ ops q).
Proof.
  intros p q.
  assert (Hq : forall o, o ∈ ops q -> subscribe_footprint o = true).
  { destruct c.(connection) as [conn|] eqn:Hconn.
    - unfold ops.
      destruct (Subscribe_run t s c conn ctx queueName Hconn) as
        [err Hq _ | ch' err Hq _ | ch' err Hq _ | ch' msgs Hq _]; fold q in Hq;
        rewrite Hq; cbn; intros o Ho; elem_cases Ho;
        first [by destruct Ho | by subst].
    - subst q. rewrite Subscribe_nil by done. by intros o ?%elem_of_nil. }
  split; [|split; [|split; [done|]]].
  - destruct c.(connection) as [conn|] eqn:Hconn.
    + unfold ops.
      destruct (Publish_run t s c conn queueName bm Hconn) as
        [err Hp _ | ch err closed Hp _ | ch sent closed Hp _]; fold p in Hp;
        rewrite Hp; cbn; intros o Ho; elem_cases Ho;
        first [by destruct Ho | by subst].
    + subst p. rewrite Publish_nil by done. by intros o ?%elem_of_nil.
  - destruct c.(connection) as [conn|] eqn:Hconn.
    + unfold ops.
      destruct (Publish_run t s c conn queueName bm Hconn) as
        [err Hp _ | ch err closed Hp _ | ch sent closed Hp _]; fold p in Hp;
        by rewrite Hp.
    + subst p. by rewrite Publish_nil.
  - intros e ch err _ _ _ Hclose. by apply Hq in Hclose.
Qed.

(** X2. The cleanup of a subscription first cancels the consumer with tag
    "" and last closes the channel, once each and whatever the cancellation
    answered; it logs exactly when the cancellation failed, once, to the
    controller's logger, the text "failed to cancel consumer: " followed by
    the error; the answer of the close is dropped and the cleanup returns
    normally. *)
Theorem X2_cleanup_always_closes {S : Type} (t : Transport S) (s : S) (f : Cleanup) :
  let r := run t (run_cleanup f) s in
  returned r = Some tt /\
  head (ops r) = Some (ChannelCancel f.(cleanup_channel) "" false) /\
  last (ops r) = Some (ChannelClose f.(cleanup_channel)) /\
  count_ops is_consumer_cancel (ops r) = 1 /\
  count_ops is_channel_close (ops r) = 1 /\
  List.filter is_log (ops r)
    = match (t (ChannelCancel f.(cleanup_channel) "" false) s).1 with
      | Some err =>
          [LoggerError f.(cleanup_logger) f.(cleanup_ctx)
             ("failed to cancel consumer: " ++ Error err)%string]
      | None => []
      end /\
  length (ops r) = 2 + length (List.filter is_log (ops r)).
Proof.
  unfold run_cleanup, ops. cbn.
  destruct (t (ChannelCancel _ _ _) s) as [[err|] s1]; cbn.
  - destruct (t (LoggerError _ _ _) s1) as [[] s2]; cbn.
    by destruct (t (ChannelClose _) s2) as [closed s3].
  - by destruct (t (ChannelClose _) s1) as [closed s2].
Qed.

(** *** Construction, again *)

Lemma NewController_run {S : Type} (t : Transport S) (s : S) (address : string)
    (options : list ControllerOption) :
  let applied := run t (apply_options options (default_controller address)) s in
  run t (NewController address options) s =
    match returned applied with
    | Some (Ok c) =>
        match c.(connection) with
        | Some _ => mkRun (trace applied) (final applied) (Some (Ok c))
        | None =>
            let dial := t (Dial address) (final applied) in
            mkRun (trace applied ++ [Ev (Dial address) dial.1]) dial.2
              (Some match dial.1 with
                    | Ok conn => Ok (set_connection conn c)
                    | Err err => Err (Errorf "could not connect to RabbitMQ" err)
                    end)
        end
    | Some (Err err) => mkRun (trace applied) (final applied) (Some (Err err))
    | None => mkRun (trace applied) (final applied) None
    end.
Proof.
  intros applied. unfold NewController. cbn zeta. rewrite run_bind. fold applied.
  cbn zeta. destruct applied as [tr s1 [[c|err]|]]; cbn.
  - destruct c.(connection) as [conn|]; cbn.
    + by rewrite app_nil_r.
    + by destruct (t (Dial address) s1) as [[conn|err] s2].
  - by rewrite app_nil_r.
  - done.
Qed.

(** Options that only set a field call nothing and keep the address and the
    connection. *)
Lemma apply_setters {S : Type} (t : Transport S) (s : S)
    (options : list ControllerOption) (c : Controller) :
  Forall (fun option => sets_queueGroup option \/ sets_logger option) options ->
  exists c', run t (apply_options options c) s = mkRun [] s (Some (Ok c')) /\
             c'.(url) = c.(url) /\ c'.(connection) = c.(connection).
Proof.
  intros Hsetters. revert c.
  induction Hsetters as [|option options [[name ->]|[l ->]] _ IH]; intros c.
  - by exists c.
  - destruct (IH (set_queueGroup name c)) as (c' & Hrun & Hurl & Hconn).
    exists c'. by rewrite <- Hrun.
  - destruct (IH (set_logger l c)) as (c' & Hrun & Hurl & Hconn).
    exists c'. by rewrite <- Hrun.
Qed.

Lemma apply_loggers {S : Type} (t : Transport S) (s : S)
    (loggers : list Logger) (c c' : Controller) :
  returned (run t (apply_options (map WithLogger loggers) c) s) = Some (Ok c') ->
  c'.(queueGroup) = c.(queueGroup).
Proof.
  revert c. induction loggers as [|l loggers IH]; intros c; cbn.
  - by intros [= <-].
  - intros Hrun. by rewrite (IH (set_logger l c)).
Qed.

Lemma apply_queueGroups {S : Type} (t : Transport S) (s : S)
    (names : list string) (c c' : Controller) :
  returned (run t (apply_options (map WithQueueGroup names) c) s) = Some (Ok c') ->
  c'.(logger) = c.(logger).
Proof.
  revert c. induction names as [|name names IH]; intros c; cbn.
  - by intros [= <-].
  - intros Hrun. by rewrite (IH (set_queueGroup name c)).
Qed.

(** X3. With options that are all [WithQueueGroup] or [WithLogger],
    [NewController] makes one call, the dial of the address, and fails
    exactly when that dial fails, with the dial's error wrapped.  The
    controller it returns has the address and the dialled connection; of
    several [WithQueueGroup] or [WithLogger] the last one wins, and a field
    no option sets keeps its default. *)
Theorem X3_setter_options {S : Type} (t : Transport S) (s : S) (address : string)
    (options : list ControllerOption) :
  Forall (fun option => sets_queueGroup option \/ sets_logger option) options ->
  let r := run t (NewController address options) s in
  let dial := t (Dial address) s in
  trace r = [Ev (Dial address) dial.1] /\
  final r = dial.2 /\
  (forall cause, dial.1 = Err cause ->
     returned r = Some (Err (Errorf "could not connect to RabbitMQ" cause))) /\
  (forall conn, dial.1 = Ok conn ->
     exists c, returned r = Some (Ok c) /\
               c.(url) = address /\ c.(connection) = Some conn) /\
  (forall name c,
     returned (run t (NewController address (options ++ [WithQueueGroup name])) s)
       = Some (Ok c) -> c.(queueGroup) = name) /\
  (forall l c,
     returned (run t (NewController address (options ++ [WithLogger l])) s)
       = Some (Ok c) -> c.(logger) = l) /\
  (forall loggers c, options = map WithLogger loggers ->
     returned r = Some (Ok c) -> c.(queueGroup) = DefaultQueueGroupID) /\
  (forall names c, options = map WithQueueGroup names ->
     returned r = Some (Ok c) -> c.(logger) = DummyLogger).
Proof.
  intros Hsetters r dial.
  destruct (apply_setters t s options (default_controller address) Hsetters)
    as (c0 & Happlied & Hurl & Hconn).
  assert (Hr : r = mkRun [Ev (Dial address) dial.1] dial.2
                 (Some match dial.1 with
                       | Ok conn => Ok (set_connection conn c0)
                       | Err err => Err (Errorf "could not connect to RabbitMQ" err)
                       end)).
  { subst r. rewrite NewController_run. cbn zeta. rewrite Happlied. cbn.
    cbn in Hconn. by rewrite Hconn. }
  assert (Hlast : forall option c,
             sets_queueGroup option \/ sets_logger option ->
             returned (run t (NewController address (options ++ [option])) s)
               = Some (Ok c) ->
             exists c1 conn,
               returned (run t (option c0) s) = Some (c1, None) /\
               c = set_connection conn c1).
  { intros option c Hsetter. rewrite NewController_run. cbn zeta.
    rewrite apply_options_app. cbn zeta. rewrite Happlied. cbn [returned final trace].
    rewrite apply_options_one. cbn zeta.
    destruct Hsetter as [[name ->]|[l ->]]; cbn; cbn in Hconn; rewrite Hconn;
      clear Hr; subst dial; destruct (t (Dial address) s) as [[conn|err] s1];
      cbn; intros ?; simplify_eq; by eexists _, _. }
  rewrite Hr. cbn [trace final returned].
  split; [done|]. split; [done|]. split; [|split; [|split; [|split; [|split]]]].
  - by intros cause ->.
  - intros conn ->. by eexists.
  - intros name c Hc.
    destruct (Hlast (WithQueueGroup name) c) as (c1 & conn & [= <-] & ->);
      [left; by eexists|done|done].
  - intros l c Hc.
    destruct (Hlast (WithLogger l) c) as (c1 & conn & [= <-] & ->);
      [right; by eexists|done|done].
  - intros loggers c -> Hc.
    assert (c0.(queueGroup) = DefaultQueueGroupID) as <-.
    { apply (apply_loggers t s loggers (default_controller address)).
      by rewrite Happlied. }
    destruct dial.1; by simplify_eq.
  - intros names c -> Hc.
    assert (c0.(logger) = DummyLogger) as <-.
    { apply (apply_queueGroups t s names (default_controller address)).
      by rewrite Happlied. }
    destruct dial.1; by simplify_eq.
Qed.

Lemma WithConnectionOpts_run {S : Type} (t : Transport S) (s : S)
    (config : Config) (c : Controller) :
  run t (WithConnectionOpts config c) s =
    let dial := t (DialConfig c.(url) config) s in
    mkRun [Ev (DialConfig c.(url) config) dial.1] dial.2
      (Some match dial.1 with
            | Ok conn => (set_connection conn c, None)
            | Err err => (c, Some (Errorf "could not connect to RabbitMQ" err))
            end).
Proof.
  unfold WithConnectionOpts. cbn.
  by destruct (t (DialConfig c.(url) config) s) as [[conn|err] s1].
Qed.

(** A chain of [WithConnectionOpts] from a controller with the address. *)
Lemma apply_connection_opts {S : Type} (t : Transport S) (address : string)
    (configs : list Config) (c : Controller) (s : S) :
  c.(url) = address ->
  let r := run t (apply_options (map WithConnectionOpts configs) c) s in
  ops r `prefix_of` map (DialConfig address) configs /\
  match returned r with
  | Some (Ok c') =>
      ops r = map (DialConfig address) configs /\
      c'.(url) = address /\
      (configs = [] -> c' = c) /\
      (forall config, last configs = Some config ->
         exists conn,
           last (trace r) = Some (Ev (DialConfig address config) (Ok conn)) /\
           c'.(connection) = Some conn)
  | Some (Err err) =>
      exists cause,
        err = Errorf "could not apply option to controller"
                (Errorf "could not connect to RabbitMQ" cause) /\
        ev_error <$> last (trace r) = Some (Some cause)
  | None => False
  end.
Proof.
  intros <-. revert c s. induction configs as [|config configs IH]; intros c s.
  - cbn. split; [done|]. repeat split; by try done.
  - cbn [map apply_options].
    change (run t (?p ≫= ?f) s) with (run t (bind f p) s).
    rewrite run_bind, WithConnectionOpts_run. unfold ops. cbn zeta.
    cbn [trace final returned].
    destruct (t (DialConfig c.(url) config) s) as [[conn|err] s1];
      cbn [fst snd trace final returned].
    + specialize (IH (set_connection conn c) s1). cbn zeta in IH.
      unfold ops in IH. change (url (set_connection conn c)) with (url c) in IH.
      destruct (run t (apply_options (map WithConnectionOpts configs)
                         (set_connection conn c)) s1) as [tr s2 ret].
      cbn [trace final returned] in *. destruct IH as [Hprefix IH].
      cbn [app map ev_op]. split; [by apply prefix_cons|].
      destruct ret as [[c'|err]|]; [| |done].
      2: { destruct IH as (cause & -> & Hcause). exists cause. split; [done|].
           destruct tr as [|e tr]; [done|]. by rewrite last_cons_cons. }
      destruct IH as (Hops & Hurl' & Hnil & Hlast).
      split; [by rewrite Hops|]. split; [done|]. split; [done|].
      intros config'. destruct configs as [|config2 configs].
      * intros [= <-]. rewrite (Hnil eq_refl).
        cbn in Hops. apply map_eq_nil in Hops as ->. by exists conn.
      * rewrite last_cons_cons. intros Hconfig.
        destruct (Hlast config' Hconfig) as (conn' & Htr & Hconn').
        exists conn'. split; [|done].
        destruct tr as [|e tr]; [done|]. by rewrite last_cons_cons.
    + cbn. split; [apply prefix_cons, prefix_nil|]. by exists err.
Qed.

(** In a chain of [WithConnectionOpts] only the last dial made can have
    failed. *)
Lemma apply_connection_opts_errors {S : Type} (t : Transport S)
    (configs : list Config) (c : Controller) (s : S) :
  forall before e,
    trace (run t (apply_options (map WithConnectionOpts configs) c) s)
      = before ++ [e] ->
    Forall (fun e' => ev_error e' = None) before.
Proof.
  revert c s. induction configs as [|config configs IH]; intros c s before e.
  - cbn. by destruct before.
  - cbn [map apply_options].
    change (run t (?p ≫= ?f) s) with (run t (bind f p) s).
    rewrite run_bind, WithConnectionOpts_run. cbn zeta.
    cbn [trace final returned].
    destruct (t (DialConfig c.(url) config) s) as [[conn|err] s1];
      cbn [fst snd trace final returned].
    + specialize (IH (set_connection conn c) s1).
      destruct (run t (apply_options (map WithConnectionOpts configs)
                         (set_connection conn c)) s1) as [tr s2 ret].
      cbn [trace final returned] in *.
      destruct before as [|e0 before]; [constructor|].
      intros Heq.
      assert (Hsplit : Ev (DialConfig c.(url) config) (Ok conn) :: tr
                       = (e0 :: before) ++ [e]).
      { rewrite <- Heq. by destruct ret as [[c'|err]|]. }
      cbn in Hsplit. injection Hsplit as <- Htr.
      constructor; [done|]. by apply (IH before e).
    + cbn. intros Heq. destruct before as [|e0 [|e1 before]]; [constructor|done|done].
Qed.

(** X4. When every option is a [WithConnectionOpts], [NewController] dials
    with each configuration in turn, always at the address given, and stops
    at the first dial that fails, returning that error wrapped twice: every
    dial before the last one made has succeeded.  It makes no other call:
    no plain dial and no close, so of several connections made all but the
    last are dropped open, and so is any made before a dial that failed.
    The controller returned holds the connection of the last dial. *)
Theorem X4_connection_options {S : Type} (t : Transport S) (s : S)
    (address : string) (config : Config) (configs : list Config) :
  let r := run t (NewController address
                    (map WithConnectionOpts (config :: configs))) s in
  ops r `prefix_of` map (DialConfig address) (config :: configs) /\
  (forall before e, trace r = before ++ [e] ->
     Forall (fun e' => ev_error e' = None) before) /\
  match returned r with
  | Some (Ok c) =>
      ops r = map (DialConfig address) (config :: configs) /\
      c.(url) = address /\
      exists final_config conn,
        last (config :: configs) = Some final_config /\
        last (trace r) = Some (Ev (DialConfig address final_config) (Ok conn)) /\
        c.(connection) = Some conn
  | Some (Err err) =>
      exists cause,
        err = Errorf "could not apply option to controller"
                (Errorf "could not connect to RabbitMQ" cause) /\
        ev_error <$> last (trace r) = Some (Some cause)
  | None => False
  end.
Proof.
  intros r. subst r. rewrite NewController_run. cbn zeta.
  destruct (apply_connection_opts t address (config :: configs)
              (default_controller address) s eq_refl) as [Hprefix Hret].
  pose proof (apply_connection_opts_errors t (config :: configs)
                (default_controller address) s) as Herrors.
  destruct (run t (apply_options (map WithConnectionOpts (config :: configs))
                     (default_controller address)) s) as [tr s1 ret].
  unfold ops in *. cbn [trace final returned] in *.
  destruct ret as [[c|err]|]; [|done|done].
  destruct Hret as (Hops & Hurl & _ & Hlast).
  destruct (last (config :: configs)) as [final_config|] eqn:Hfinal.
  2: { by apply last_None in Hfinal. }
  destruct (Hlast final_config eq_refl) as (conn & Htr & Hconn).
  rewrite Hconn. cbn. split; [done|]. split; [done|]. split; [done|].
  split; [done|]. by exists final_config, conn.
Qed.

(** X5. Whatever the options are, a controller that [NewController]
    returns has a connection; so [Publish] and [Subscribe] on it do not
    panic: on every transport they return. *)
Theorem X5_constructed_is_connected {S : Type} (t : Transport S) (s : S)
    (address : string) (options : list ControllerOption) (c : Controller) :
  returned (run t (NewController address options) s) = Some (Ok c) ->
  (exists conn, c.(connection) = Some conn) /\
  (forall (S' : Type) (t' : Transport S') (s' : S') (ctx : Context)
          (queueName : string) (bm : BrokerMessage),
      returned (run t' (Publish c queueName bm) s') <> None /\
      returned (run t' (Subscribe c ctx queueName) s') <> None).
Proof.
  rewrite NewController_run. cbn zeta.
  destruct (run t (apply_options options (default_controller address)) s)
    as [tr s1 [[c1|err]|]]; cbn; [|done|done].
  intros Hret.
  assert (Hconn : exists conn, c.(connection) = Some conn).
  { destruct c1.(connection) as [conn|] eqn:Hconn1; cbn in Hret.
    - simplify_eq. by exists conn.
    - destruct (t (Dial address) s1) as [[conn|err] s2]; cbn in Hret; simplify_eq.
      by exists conn. }
  split; [done|]. destruct Hconn as [conn Hconn].
  intros S' t' s' ctx queueName bm. split.
  - destruct (Publish_run t' s' c conn queueName bm Hconn) as
      [err _ -> | ch err closed _ -> | ch sent closed _ ->]; done.
  - destruct (Subscribe_run t' s' c conn ctx queueName Hconn) as
      [err _ -> | ch err _ -> | ch err _ -> | ch msgs _ ->]; done.
Qed.

(** X6. The encoding of headers loses nothing: different mappings give
    different tables.  Both loops keep the set of keys.  Decoding forgets
    how a value was represented: decoding a table and encoding the result
    gives a table that decodes to the same mapping. *)
Theorem X6_header_codec_canonical :
  (forall h1 h2 : gmap string bytes,
      publish_headers h1 = publish_headers h2 -> h1 = h2) /\
  (forall h : gmap string bytes, dom (publish_headers h) = dom h) /\
  (forall t : gmap string TableValue, dom (delivery_headers t) = dom t) /\
  (forall t : gmap string TableValue,
      delivery_headers (publish_headers (delivery_headers t)) = delivery_headers t).
Proof.
  assert (Hround : forall h : gmap string bytes,
             delivery_headers (publish_headers h) = h).
  { intros h. apply map_eq. intros k.
    rewrite delivery_headers_lookup, publish_headers_lookup.
    by destruct (h !! k). }
  repeat split.
  - intros h1 h2 Heq. by rewrite <- (Hround h1), Heq, Hround.
  - intros h. apply set_eq. intros k.
    by rewrite !elem_of_dom, publish_headers_lookup, fmap_is_Some.
  - intros t. apply set_eq. intros k.
    by rewrite !elem_of_dom, delivery_headers_lookup, fmap_is_Some.
  - intros t. apply Hround.
Qed.

(** X13. A handler keeps no record of a decision: however often and in
    whatever order [AckMessage] and [NakMessage] are called on it, and
    whatever the transport answers, every call reaches the transport, as
    an acknowledgement of the same delivery or as its rejection without
    requeue, in the order of the calls. *)
Theorem X13_handler_keeps_no_state {S : Type} (t : Transport S) (s : S)
    (h : AcknowledgementHandler) (delivery : Delivery) (decisions : list bool) :
  h.(handler_Delivery) = Some delivery ->
  let r := run t (decide_all h decisions) s in
  returned r = Some tt /\
  ops r = map (fun ack : bool =>
                 if ack then DeliveryAck delivery false
                 else DeliveryNack delivery false false) decisions.
Proof.
  intros Hbound. revert s.
  induction decisions as [|ack decisions IH]; intros s; [done|].
  cbn [decide_all]. cbn zeta.
  change (run t (?p ≫= ?f) s) with (run t (bind f p) s).
  rewrite run_bind. unfold ops. cbn zeta.
  assert (Hcall : exists x s1,
             run t (if ack then AckMessage h else NakMessage h) s
             = mkRun [Ev (if ack then DeliveryAck delivery false
                          else DeliveryNack delivery false false) x] s1 (Some tt)).
  { unfold AckMessage, NakMessage. rewrite Hbound. destruct ack; cbn.
    - destruct (t (DeliveryAck delivery false) s) as [x s1]. by eexists _, _.
    - destruct (t (DeliveryNack delivery false false) s) as [x s1]. by eexists _, _. }
  destruct Hcall as (x & s1 & ->). cbn [trace final returned].
  destruct (IH s1) as [Hret Hops]. unfold ops in Hops.
  rewrite Hret. cbn [trace returned app map ev_op]. split; [done|].
  rewrite Hops. by destruct ack.
Qed.

End Rabbitmq.

(** ** The controller on concrete brokers *)

Example Publish_healthy :
  ops (run healthy (Publish (other := bool) controller0 "TestQueueAck" message0) 0)
  = [ConnectionChannel 7;
     QueueDeclare 0 "TestQueueAck" false false false false None;
     ChannelPublish 0 "" "TestQueueAck" false false
       {| pub_ContentType := "text/plain";
          pub_Body := bytes_of_string "testmessage";
          pub_Headers := {["trace" := BytesValue (bytes_of_string "a1")]} |};
     ChannelClose 0].
Proof. vm_compute. reflexivity. Qed.

Example delivery_headers_coerced :
  delivery_headers Sprintf_bool
    {["raw" := BytesValue (bytes_of_string "a1")]} = {["raw" := bytes_of_string "a1"]} /\
  delivery_headers Sprintf_bool
    {["name" := StringValue "M2"]} = {["name" := bytes_of_string "M2"]} /\
  delivery_headers Sprintf_bool
    {["flag" := OtherValue true]} = {["flag" := bytes_of_string "true"]}.
Proof. repeat split; vm_compute; reflexivity. Qed.

Example NewController_last_option_wins :
  returned (run (healthy (other := bool))
              (NewController "asyncapi" "amqp://rabbitmq:5672"
                 [WithQueueGroup "a"; WithLogger (CustomLogger 1); WithQueueGroup "b"])
              0)
  = Some (Ok {| url := "amqp://rabbitmq:5672"; connection := Some 0;
                logger := CustomLogger 1; queueGroup := "b" |}).
Proof. reflexivity. Qed.

Example NewController_connection_from_option :
  ops (run (healthy (other := bool))
         (NewController "asyncapi" "amqp://rabbitmq:5672"
            [WithQueueGroup "a"; WithConnectionOpts 3])
         0)
  = [DialConfig "amqp://rabbitmq:5672" 3].
Proof. reflexivity. Qed.

Example NewController_dial_refused :
  run (refusing (other := bool) is_dial)
    (NewController "asyncapi" "amqp://rabbitmq:5672" [WithQueueGroup "a"]) 0
  = mkRun [Ev (Dial "amqp://rabbitmq:5672") (Err (TransportError "refused"))] 0
      (Some (Err (Errorf "could not connect to RabbitMQ" (TransportError "refused")))).
Proof. reflexivity. Qed.

Example Subscribe_healthy :
  ops (run healthy (Subscribe (other := bool) 64 controller0 0 "TestQueueAck") 0)
  = [ConnectionChannel 7;
     QueueDeclare 0 "TestQueueAck" false false false false None;
     ChannelConsume 0 "TestQueueAck" "" false false false false None;
     WaitForCancellationAsync (mkCleanup DummyLogger 0 0);
     GoForward 1].
Proof. reflexivity. Qed.

Example Subscribe_declare_refused :
  run (refusing is_declare) (Subscribe (other := bool) 64 controller0 0 "TestQueueAck") 0
  = mkRun [Ev (ConnectionChannel 7) (Ok 0);
           Ev (QueueDeclare 0 "TestQueueAck" false false false false None)
             (Err (TransportError "refused"))]
      1 (Some (Err (Errorf "failed to declare queue" (TransportError "refused")))).
Proof. reflexivity. Qed.

Example cleanup_logs_refused_cancel :
  ops (run (refusing (other := bool) is_consumer_cancel)
         (run_cleanup (mkCleanup (CustomLogger 1) 0 5)) 0)
  = [ChannelCancel 5 "" false;
     LoggerError (CustomLogger 1) 0 "failed to cancel consumer: refused";
     ChannelClose 5].
Proof. reflexivity. Qed.

Example pipeline_in_order :
  (pipeline_run Sprintf_bool
     [Forwarder; Forwarder; Forwarder; Forwarder; Consumer; Consumer]
     (pipeline_start (subscription0 64) [delivery1; delivery2])).(pl_received)
  = [forward_message Sprintf_bool delivery1; forward_message Sprintf_bool delivery2].
Proof. reflexivity. Qed.

(** With a buffer of one message the goroutine waits for the consumer. *)
Example pipeline_backpressure :
  let p := pipeline_run Sprintf_bool [Forwarder; Forwarder; Forwarder]
             (pipeline_start (subscription0 1) [delivery1; delivery2]) in
  pipeline_step Sprintf_bool Forwarder p = None /\
  p.(pl_transmitting) = Some (forward_message Sprintf_bool delivery2) /\
  p.(pl_sub).(sub_messages).(chan_buf) = [forward_message Sprintf_bool delivery1].
Proof. repeat split. Qed.

(** C2 on a healthy broker: two deliveries, the goroutine and the consumer
    taking turns; at that point the consumer holds the message of the first
    delivery. *)
Lemma C2_forwarding_is_fifo_witness :
  returned (run healthy (Subscribe (other := bool) 64 controller0 0 "TestQueueAck") 0)
    = Some (Ok (subscription0 64)) /\
  (exists taken rest,
      [delivery1; delivery2] = taken ++ rest /\
      Forall2 (forwarded_from Sprintf_bool)
        (pipeline_run Sprintf_bool [Forwarder; Forwarder; Consumer; Forwarder]
           (pipeline_start (subscription0 64) [delivery1; delivery2])).(pl_received)
        taken) /\
  exists more,
    Forall2 (forwarded_from Sprintf_bool)
      (pipeline_run Sprintf_bool ([Forwarder; Forwarder; Consumer; Forwarder] ++ more)
         (pipeline_start (subscription0 64) [delivery1; delivery2])).(pl_received)
      [delivery1; delivery2].
Proof.
  split; [reflexivity|].
  destruct (C2_forwarding_is_fifo Sprintf_bool 64 healthy 0 controller0 0
              "TestQueueAck" (subscription0 64) [delivery1; delivery2]
              [Forwarder; Forwarder; Consumer; Forwarder] eq_refl)
    as (_ & _ & _ & _ & _ & _ & _ & Htaken & Hcomplete).
  split; [exact Htaken|].
  destruct Hcomplete as (more & _ & Hall); [lia|].
  exists more. exact Hall.
Defined.

(** C4 on a broker that refuses to declare queues: [Publish] reports the
    refusal and closes the channel. *)
Lemma C4_Publish_errors_witness :
  controller0.(connection) = Some 7 /\
  (exists err,
      returned (run (refusing is_declare)
                  (Publish (other := bool) controller0 "TestQueueAck" message0) 0)
      = Some (Some err) /\
      root_cause err = TransportError "refused") /\
  last (ops (run (refusing is_declare)
               (Publish (other := bool) controller0 "TestQueueAck" message0) 0))
    = Some (ChannelClose 0).
Proof.
  split; [reflexivity|].
  destruct (C4_Publish_errors (refusing (other := bool) is_declare) 0 controller0 7
              "TestQueueAck" message0 eq_refl)
    as ((res & Hret & _ & Hfailed) & _ & Hclosed & _).
  split.
  - destruct (Hfailed
                (Ev (QueueDeclare 0 "TestQueueAck" false false false false None)
                   (Err (TransportError "refused")))
                (TransportError "refused")) as (err & Hres & Hcause);
      [|reflexivity|reflexivity|].
    + apply list_elem_of_further, list_elem_of_here.
    + exists err. split; [|exact Hcause]. rewrite Hret. by rewrite Hres.
  - apply (Hclosed (Ev (ConnectionChannel 7) (Ok 0)) 0); [|reflexivity].
    apply list_elem_of_here.
Defined.

(** C5 on a broker that refuses consumers. *)
Lemma C5_Subscribe_errors_witness :
  controller0.(connection) = Some 7 /\
  exists res : result (BrokerChannelSubscription (other := bool)),
    returned (run (refusing is_consume)
                (Subscribe 64 controller0 0 "TestQueueAck") 0) = Some res /\
    forall sub, res = Ok sub -> False.
Proof.
  split; [reflexivity|].
  destruct (C5_Subscribe_errors 64 (refusing (other := bool) is_consume) 0
              controller0 7 0 "TestQueueAck" eq_refl)
    as (res & Hret & _ & Hfailed & _).
  exists res. split; [exact Hret|].
  intros sub ->.
  destruct (Hfailed
              (Ev (ChannelConsume 0 "TestQueueAck" "" false false false false None)
                 (Err (TransportError "refused")))
              (TransportError "refused")) as (err & Herr & _);
    [|reflexivity|discriminate Herr].
  do 2 apply list_elem_of_further. apply list_elem_of_here.
Defined.

(** C7 on a broker that refuses acknowledgements and rejections alike. *)
Lemma C7_ack_nak_fire_and_forget_witness :
  (forward_message Sprintf_bool delivery1).(abm_handler).(handler_Delivery)
    = Some delivery1 /\
  returned (run (refusing (fun _ => true))
              (AckMessage (forward_message Sprintf_bool delivery1).(abm_handler)) 0)
    = Some tt /\
  ops (run (refusing (fun _ => true))
         (NakMessage (forward_message Sprintf_bool delivery1).(abm_handler)) 0)
    = [DeliveryNack delivery1 false false].
Proof.
  split; [reflexivity|].
  destruct (C7_ack_nak_fire_and_forget Sprintf_bool (refusing (fun _ => true)) 0
              (forward_message Sprintf_bool delivery1).(abm_handler) delivery1
              eq_refl) as (_ & Hack & Hnak).
  split; [by rewrite Hack | by rewrite Hnak].
Defined.

Lemma broker_closes_once {other : Type} :
  closes_once (broker (other := other)) broker_open.
Proof.
  intros [n closed] conn. unfold broker_open, broker. cbn.
  destruct (decide (conn ∈ closed)) as [Hin|Hout].
  - rewrite (bool_decide_eq_false_2 (conn ∉ closed)) by tauto.
    rewrite (bool_decide_eq_true_2 _ Hin). cbn. split; [by eexists|done].
  - rewrite (bool_decide_eq_true_2 (conn ∉ closed)) by done.
    rewrite (bool_decide_eq_false_2 _ Hout). cbn. split; [done|].
    apply bool_decide_eq_false_2. intros Hnot. apply Hnot. by left.
Qed.

(** C8 on a broker that closes a connection once: [Close] called three
    times, a subscription signalled three times. *)
Lemma C8_teardown_idempotent_witness :
  controller0.(connection) = Some 7 /\
  ops (run (broker (other := bool)) (close_all controller0 3) (0, []))
    = [ConnectionClose 7; ConnectionClose 7; ConnectionClose 7] /\
  final (run (broker (other := bool)) (close_all controller0 3) (0, []))
    = final (run (broker (other := bool)) (Close controller0) (0, [])) /\
  List.filter is_channel_close
    (ops (run (broker (other := bool))
            (signal_all (mkCleanup DummyLogger 0 5) 3 Active) (0, [])))
    = [ChannelClose 5].
Proof.
  split; [reflexivity|].
  destruct (C8_teardown_idempotent (broker (other := bool)) (0, []) controller0 7
              (mkCleanup DummyLogger 0 5) 2 eq_refl)
    as (_ & Hasked & Honce & _ & _ & Hchannel).
  split; [exact Hasked|]. split; [|exact Hchannel].
  destruct (Honce broker_open broker_closes_once eq_refl) as (_ & Hfinal & _).
  exact Hfinal.
Defined.

(** C9 on a healthy broker: the queue groups "a" and "b". *)
Lemma C9_queueGroup_not_observable_witness :
  (set_queueGroup "a" controller0).(url) = (set_queueGroup "b" controller0).(url) /\
  (set_queueGroup "a" controller0).(connection)
    = (set_queueGroup "b" controller0).(connection) /\
  (set_queueGroup "a" controller0).(logger)
    = (set_queueGroup "b" controller0).(logger) /\
  run (healthy (other := bool))
    (Publish (set_queueGroup "a" controller0) "TestQueueAck" message0) 0
  = run healthy (Publish (set_queueGroup "b" controller0) "TestQueueAck" message0) 0 /\
  run (healthy (other := bool))
    (Subscribe 64 (set_queueGroup "a" controller0) 0 "TestQueueAck") 0
  = run healthy (Subscribe 64 (set_queueGroup "b" controller0) 0 "TestQueueAck") 0.
Proof.
  do 3 (split; [reflexivity|]).
  apply (C9_queueGroup_not_observable 64 (healthy (other := bool)) 0
           (set_queueGroup "a" controller0) (set_queueGroup "b" controller0));
    reflexivity.
Defined.

(** C10 on the zero controller. *)
Lemma C10_Close_without_connection_witness :
  (mkController "" None DummyLogger "").(connection) = None /\
  run (healthy (other := bool)) (Close (mkController "" None DummyLogger "")) 0
  = mkRun [] 0 (Some tt).
Proof.
  split; [reflexivity|].
  apply (C10_Close_without_connection (healthy (other := bool)) 0
           (mkController "" None DummyLogger "")).
  reflexivity.
Defined.

(** X3 on the construction of the example application: a logger, then a
    queue group. *)
Lemma X3_setter_options_witness :
  Forall (fun option : ControllerOption (other := bool) =>
            sets_queueGroup option \/ sets_logger option)
    [WithLogger (CustomLogger 1); WithQueueGroup "ping-apps"] /\
  trace (run (healthy (other := bool))
           (NewController "asyncapi" "amqp://rabbitmq:5672"
              [WithLogger (CustomLogger 1); WithQueueGroup "ping-apps"]) 0)
  = [Ev (Dial "amqp://rabbitmq:5672") (Ok 0)].
Proof.
  assert (Hsetters :
            Forall (fun option : ControllerOption (other := bool) =>
                      sets_queueGroup option \/ sets_logger option)
              [WithLogger (CustomLogger 1); WithQueueGroup "ping-apps"]).
  { constructor; [right; by exists (CustomLogger 1)|].
    constructor; [left; by exists "ping-apps"|]. constructor. }
  split; [exact Hsetters|].
  apply (X3_setter_options "asyncapi" healthy 0 "amqp://rabbitmq:5672" _ Hsetters).
Defined.

(** X5 on a construction without options. *)
Lemma X5_constructed_is_connected_witness :
  returned (run (healthy (other := bool))
              (NewController "asyncapi" "amqp://rabbitmq:5672" []) 0)
  = Some (Ok {| url := "amqp://rabbitmq:5672"; connection := Some 0;
                logger := DummyLogger; queueGroup := "asyncapi" |}) /\
  returned (run (refusing (other := bool) is_send)
              (Publish {| url := "amqp://rabbitmq:5672"; connection := Some 0;
                          logger := DummyLogger; queueGroup := "asyncapi" |}
                 "TestQueueAck" message0) 0) <> None.
Proof.
  split; [reflexivity|].
  destruct (X5_constructed_is_connected 64 "asyncapi" (healthy (other := bool)) 0
              "amqp://rabbitmq:5672" [] _ eq_refl) as [_ Hreturns].
  apply (Hreturns nat (refusing is_send) 0 0 "TestQueueAck" message0).
Defined.

(** X13 on a consumer that acknowledges, rejects and acknowledges again. *)
Lemma X13_handler_keeps_no_state_witness :
  (forward_message Sprintf_bool delivery1).(abm_handler).(handler_Delivery)
    = Some delivery1 /\
  ops (run (refusing (fun _ => true))
         (decide_all (forward_message Sprintf_bool delivery1).(abm_handler)
            [true; false; true]) 0)
  = [DeliveryAck delivery1 false; DeliveryNack delivery1 false false;
     DeliveryAck delivery1 false].
Proof.
  split; [reflexivity|].
  apply (X13_handler_keeps_no_state (refusing (fun _ => true)) 0
           (forward_message Sprintf_bool delivery1).(abm_handler) delivery1
           [true; false; true] eq_refl).
Defined.

(** * The versioning helper of the build, verified *)

Module GitCIFacts.
Import GitCI.

(** ** Facts about the library functions *)

Lemma digit_digit_byte (d : N) : (d < 10)%N -> digit (digit_byte d) = Some d.
Proof.
  intros Hd.
  destruct d as [|p]; [done|].
  do 4 (destruct p as [p|p|]; try lia; try done).
Qed.

Lemma append_String (a : ascii) (s1 s2 : string) :
  (String a s1 ++ s2)%string = String a (s1 ++ s2).
Proof. reflexivity. Qed.

Lemma append_empty (s : string) : ("" ++ s)%string = s.
Proof. reflexivity. Qed.

Lemma append_assoc (s1 s2 s3 : string) :
  ((s1 ++ s2) ++ s3)%string = (s1 ++ (s2 ++ s3))%string.
Proof.
  induction s1 as [|a s1 IH]; [done|]. rewrite !append_String. by f_equal.
Qed.

Lemma append_empty_r (s : string) : (s ++ "")%string = s.
Proof.
  induction s as [|a s IH]; [done|]. rewrite append_String. by f_equal.
Qed.

Lemma all_bytes_app (P : ascii -> bool) (s1 s2 : string) :
  all_bytes P (s1 ++ s2) = all_bytes P s1 && all_bytes P s2.
Proof.
  induction s1 as [|a s1 IH]; [done|].
  rewrite append_String. cbn. rewrite IH. by rewrite andb_assoc.
Qed.

Lemma digit_byte_is_digit (d : N) : (d < 10)%N -> is_digit_byte (digit_byte d) = true.
Proof.
  intros Hd. unfold is_digit_byte. rewrite digit_digit_byte by done.
  by apply bool_decide_eq_true.
Qed.

Lemma format_digits_digits (fuel : nat) (n : N) :
  all_bytes is_digit_byte (format_digits fuel n) = true.
Proof.
  revert n. induction fuel as [|fuel IH]; intros n; [done|].
  cbn [format_digits]. destruct (N.ltb_spec n 10).
  - cbn. by rewrite digit_byte_is_digit.
  - rewrite all_bytes_app, IH. cbn. rewrite digit_byte_is_digit; [done|].
    by apply N.mod_lt.
Qed.

Lemma format_digits_nonempty (fuel : nat) (n : N) :
  format_digits (S fuel) n <> "".
Proof.
  cbn [format_digits]. destruct (n <? 10)%N; [done|].
  destruct (format_digits fuel (n / 10)); [by rewrite append_empty|].
  by rewrite append_String.
Qed.

Lemma parse_format_digits (fuel : nat) (n : N) (rest : string) :
  (n < 10 ^ N.of_nat fuel)%N -> (n <= maxUint64)%N ->
  parse_digits 0 (format_digits fuel n ++ rest) = parse_digits n rest.
Proof.
  revert n rest. induction fuel as [|fuel IH]; intros n rest Hfuel Hmax.
  { cbn in Hfuel. assert (n = 0%N) as -> by lia. done. }
  assert (Hstep : forall m d : N, (d < 10)%N -> (m * 10 + d <= maxUint64)%N ->
            parse_digits m (String (digit_byte d) rest)
            = parse_digits (m * 10 + d) rest).
  { intros m d Hd Hle. cbn [parse_digits]. rewrite digit_digit_byte by done.
    assert (Hcut : (maxUint64 / 10 + 1 = 1844674407370955162)%N) by reflexivity.
    assert (Hval : maxUint64 = 18446744073709551615%N) by reflexivity.
    rewrite Hcut. rewrite Hval in Hle |- *.
    destruct (N.leb_spec 1844674407370955162 m); [lia|].
    destruct (N.ltb_spec 18446744073709551615 (m * 10 + d)); [lia|done]. }
  cbn [format_digits]. destruct (N.ltb_spec n 10) as [Hsmall|Hbig].
  - rewrite append_String, append_empty. by rewrite (Hstep 0%N n).
  - rewrite append_assoc, append_String, append_empty.
    assert (Hdiv : (n = n / 10 * 10 + n mod 10)%N).
    { rewrite N.mul_comm. apply N.div_mod. lia. }
    rewrite IH.
    + rewrite Hstep; [by rewrite <- Hdiv|by apply N.mod_lt|by rewrite <- Hdiv].
    + rewrite Nat2N.inj_succ, N.pow_succ_r' in Hfuel.
      apply N.Div0.div_lt_upper_bound. lia.
    + etrans; [|done]. apply N.Div0.div_le_upper_bound. lia.
Qed.


Lemma Atoi_in_range (s : string) (z : Z) : Atoi s = Done z -> in_int_range z.
Proof.
  unfold Atoi, in_int_range.
  destruct (if HasPrefix s "-" || HasPrefix s "+" then drop_bytes 1 s else s);
    [done|].
  destruct (parse_digits 0 _) as [err|un]; [done|].
  destruct (HasPrefix s "-"); cbn [negb andb].
  - destruct (N.ltb_spec (2 ^ 63) un); [done|]. intros [= <-]. lia.
  - destruct (N.leb_spec (2 ^ 63) un); [done|]. intros [= <-]. lia.
Qed.

Lemma parse_format_digits_20 (n : N) :
  (n <= 2 ^ 63)%N -> parse_digits 0 (format_digits 20 n) = inr n.
Proof.
  intros Hn. rewrite <- (append_empty_r (format_digits 20 n)).
  rewrite parse_format_digits; [done| |].
  - assert ((10 ^ N.of_nat 20)%N = 100000000000000000000%N) as -> by reflexivity.
    lia.
  - assert (maxUint64 = 18446744073709551615%N) as -> by reflexivity. lia.
Qed.

Lemma format_digits_head (fuel : nat) (n : N) :
  exists c s, format_digits (S fuel) n = String c s /\ is_digit_byte c = true.
Proof.
  pose proof (format_digits_digits (S fuel) n) as Hdigits.
  pose proof (format_digits_nonempty fuel n) as Hnonempty.
  destruct (format_digits (S fuel) n) as [|c s]; [done|].
  exists c, s. split; [done|]. cbn in Hdigits. by apply andb_prop in Hdigits as [? _].
Qed.

(** What [%d] prints, [Atoi] reads back. *)
Lemma Atoi_format_int (z : Z) : in_int_range z -> Atoi (format_int z) = Done z.
Proof.
  unfold in_int_range, format_int. intros Hz.
  destruct (Z.ltb_spec z 0) as [Hneg|Hpos].
  - pose proof (parse_format_digits_20 (Z.to_N (- z))) as Hparse.
    destruct (format_digits_head 19 (Z.to_N (- z))) as (c & s & Hs & _).
    rewrite Hs in Hparse |- *. unfold Atoi.
    cbn -[parse_digits N.ltb N.leb N.pow]. rewrite Hparse by lia.
    destruct (N.ltb_spec (2 ^ 63) (Z.to_N (- z))); [lia|].
    f_equal. lia.
  - pose proof (parse_format_digits_20 (Z.to_N z)) as Hparse.
    destruct (format_digits_head 19 (Z.to_N z)) as (c & s & Hs & Hc).
    rewrite Hs in Hparse |- *. unfold Atoi.
    assert (Hminus : HasPrefix (String c s) "-" = false).
    { cbn [HasPrefix]. by destruct (Ascii.eqb_spec "-" c) as [<-|]. }
    assert (Hplus : HasPrefix (String c s) "+" = false).
    { cbn [HasPrefix]. by destruct (Ascii.eqb_spec "+" c) as [<-|]. }
    rewrite Hminus, Hplus. cbn [orb negb andb]. rewrite Hparse by lia.
    destruct (N.leb_spec (2 ^ 63) (Z.to_N z)); [lia|].
    f_equal. lia.
Qed.

Lemma all_bytes_impl (P Q : ascii -> bool) (s : string) :
  (forall c, P c = true -> Q c = true) ->
  all_bytes P s = true -> all_bytes Q s = true.
Proof.
  intros HPQ. induction s as [|a s IH]; [done|]. cbn.
  intros [Ha Hs]%andb_prop. by rewrite (HPQ a Ha), IH.
Qed.

Lemma format_int_no_dot (z : Z) : all_bytes (not_byte ".") (format_int z) = true.
Proof.
  assert (Hdigit : forall c, is_digit_byte c = true -> not_byte "." c = true).
  { intros c Hc. unfold not_byte. by destruct (Ascii.eqb_spec c ".") as [->|]. }
  unfold format_int. destruct (z <? 0)%Z.
  - cbn [all_bytes]. apply andb_true_intro. split; [done|].
    apply (all_bytes_impl _ _ _ Hdigit), format_digits_digits.
  - apply (all_bytes_impl _ _ _ Hdigit), format_digits_digits.
Qed.

Lemma Split_nonempty (s : string) (sep : ascii) : Split s sep <> [].
Proof.
  destruct s as [|a s]; [done|]. cbn.
  destruct (Ascii.eqb a sep); [done|]. by destruct (Split s sep).
Qed.

Lemma Split_no_sep (s : string) (sep : ascii) :
  all_bytes (not_byte sep) s = true -> Split s sep = [s].
Proof.
  induction s as [|a s IH]; [done|]. cbn. unfold not_byte at 1.
  intros [Ha Hs]%andb_prop. apply negb_true_iff in Ha. by rewrite Ha, IH.
Qed.

Lemma Split_append (s rest : string) (sep : ascii) :
  all_bytes (not_byte sep) s = true ->
  Split (s ++ String sep rest) sep = s :: Split rest sep.
Proof.
  induction s as [|a s IH].
  - intros _. rewrite append_empty. cbn. by rewrite Ascii.eqb_refl.
  - cbn [all_bytes]. unfold not_byte at 1.
    intros [Ha Hs]%andb_prop. apply negb_true_iff in Ha.
    rewrite append_String. cbn [Split]. by rewrite Ha, IH.
Qed.

Lemma length_Split (s : string) (sep : ascii) :
  length (Split s sep) = S (count_byte sep s).
Proof.
  induction s as [|a s IH]; [done|]. cbn.
  destruct (Ascii.eqb a sep); cbn; [by rewrite IH|].
  pose proof (Split_nonempty s sep).
  destruct (Split s sep); [done|]. cbn in *. lia.
Qed.

Lemma length_append (s1 s2 : string) :
  String.length (s1 ++ s2) = String.length s1 + String.length s2.
Proof.
  induction s1 as [|a s1 IH]; [done|]. rewrite append_String. cbn. by rewrite IH.
Qed.

(** [TrimSuffix] takes one copy of the suffix off the end, and only one. *)
Lemma TrimSuffix_append (s suffix : string) :
  TrimSuffix (s ++ suffix) suffix = s.
Proof.
  induction s as [|a s IH].
  - rewrite append_empty. destruct suffix as [|b suffix]; [done|].
    cbn [TrimSuffix]. by rewrite String.eqb_refl.
  - rewrite append_String. cbn [TrimSuffix].
    destruct (String.eqb_spec (String a (s ++ suffix)) suffix) as [Heq|_].
    + apply (f_equal String.length) in Heq. cbn in Heq.
      rewrite length_append in Heq. lia.
    + by rewrite IH.
Qed.

(** A version printed by [GetNewSemVerIfNeeded] is read back by
    [GetLastSemanticVersionedTag]. *)
Lemma parse_tag_Sprintf_semver (major minor patch : Z) :
  in_int_range major -> in_int_range minor -> in_int_range patch ->
  parse_tag (Sprintf_semver major minor patch) = Done (major, minor, patch).
Proof.
  intros Hmajor Hminor Hpatch. unfold parse_tag.
  assert (Hbody : TrimPrefix (Sprintf_semver major minor patch) "v"
                  = (format_int major
                       ++ String "." (format_int minor
                                        ++ String "." (format_int patch)))%string).
  { unfold Sprintf_semver.
    rewrite !(append_String "v"), !(append_String "."), !append_empty.
    unfold TrimPrefix. cbn [HasPrefix]. by rewrite Ascii.eqb_refl. }
  rewrite Hbody.
  rewrite !Split_append by apply format_int_no_dot.
  rewrite Split_no_sep by apply format_int_no_dot.
  by rewrite !Atoi_format_int.
Qed.

Lemma int_incr_range (x : Z) : in_int_range (int_incr x).
Proof.
  unfold in_int_range, int_incr.
  pose proof (Z.mod_pos_bound (x + 1 + 2 ^ 63) (2 ^ 64)). lia.
Qed.

Lemma int_incr_small (x : Z) :
  (- 2 ^ 63 <= x < 2 ^ 63 - 1)%Z -> int_incr x = (x + 1)%Z.
Proof.
  intros Hx. unfold int_incr. rewrite Z.mod_small; lia.
Qed.


(** ** Facts about [Git] *)

Lemma Exec_run_bind {S A B : Type} (t : Container S) (p : Prog A) (f : A -> Prog B) (s : S) :
  run t (p ≫= f) s =
    let r1 := run t p s in
    let r2 := run t (f (returned r1)) (final r1) in
    mkRun (trace r1 ++ trace r2) (final r2) (returned r2).
Proof.
  revert s. induction p as [r|commands k IH]; intros s.
  - cbn. by destruct (run t (f r) s).
  - change (Exec commands k ≫= f) with (Exec commands (fun x => k x ≫= f)).
    cbn. destruct (t commands s) as [x s']. by rewrite IH.
Qed.

Lemma GetLastCommitShortSHA_run {S : Type} (t : Container S) (s : S) (g : Git) :
  run t (GetLastCommitShortSHA g) s
  = cached_run t s g lastCommit_shortSHA set_lastCommit_shortSHA
      ["git"; "rev-parse"; "--short"; "HEAD"].
Proof.
  unfold GetLastCommitShortSHA, cached_run.
  destruct (String.eqb _ ""); [|done]. cbn.
  by destruct (t _ s) as [[res|err] s1].
Qed.

Lemma GetActualBranch_run {S : Type} (t : Container S) (s : S) (g : Git) :
  run t (GetActualBranch g) s
  = cached_run t s g actualBranch set_actualBranch
      ["git"; "rev-parse"; "--abbrev-ref"; "HEAD"].
Proof.
  unfold GetActualBranch, cached_run.
  destruct (String.eqb _ ""); [|done]. cbn.
  by destruct (t _ s) as [[res|err] s1].
Qed.

Lemma GetLastCommitTitle_run {S : Type} (t : Container S) (s : S) (g : Git) :
  run t (GetLastCommitTitle g) s
  = cached_run t s g lastCommit_title set_lastCommit_title
      ["git"; "log"; "-1"; "--pretty=%B"].
Proof.
  unfold GetLastCommitTitle, cached_run.
  destruct (String.eqb _ ""); [|done]. cbn.
  by destruct (t _ s) as [[res|err] s1].
Qed.

Lemma GetLastTag_run {S : Type} (t : Container S) (s : S) (g : Git) :
  run t (GetLastTag g) s
  = cached_run t s g lastTag set_lastTag
      ["git"; "describe"; "--tags"; "--abbrev=0"].
Proof.
  unfold GetLastTag, cached_run.
  destruct (String.eqb _ ""); [|done]. cbn.
  by destruct (t _ s) as [[res|err] s1].
Qed.

Lemma cached_run_remembers (get : Git -> Prog (Git * outcome string))
    (field : Git -> string) (set : string -> Git -> Git) (command : list string) :
  (forall (S : Type) (t : Container S) (s : S) (g : Git),
      run t (get g) s = cached_run t s g field set command) ->
  (forall v g, field (set v g) = v) ->
  (forall g, set (field g) g = g) ->
  remembers get command.
Proof.
  intros Hrun Hget Hset S t s g. cbn zeta. rewrite (Hrun S t s g).
  remember (cached_run t s g field set command) as first eqn:Hfirst.
  unfold cached_run in Hfirst. unfold executed.
  destruct (String.eqb_spec (field g) "") as [Hmiss|Hhit].
  - destruct (t [command] s) as [[res|err] s1] eqn:Ht;
      cbn [fst snd] in Hfirst; subst first; cbn [trace final returned map fst snd].
    + split; [by right|]. split.
      { intros out _ [= ->]. by rewrite TrimSuffix_append. }
      rewrite Hrun. unfold cached_run. rewrite Hget.
      destruct (String.eqb_spec (TrimSuffix res newline) "") as [Hempty|Hfull].
      * rewrite Hempty. split; [|done]. by rewrite <- Hmiss, Hset.
      * done.
    + split; [by right|]. split; [done|]. done.
  - subst first. cbn [trace final returned map fst snd].
    split; [by left|]. split; [done|].
    rewrite Hrun. unfold cached_run.
    by destruct (String.eqb_spec (field g) "").
Qed.

(** X7. Each of the four getters runs at most one git command, its own.
    What git printed is returned without its final newline (one newline,
    not more).  After a call that returned a text that is not empty, the
    next call runs nothing and returns the same text; a failure is not
    remembered, and neither is an empty answer: the next call asks git
    again. *)
Theorem X7_getters_remember :
  remembers GetLastCommitShortSHA ["git"; "rev-parse"; "--short"; "HEAD"] /\
  remembers GetActualBranch ["git"; "rev-parse"; "--abbrev-ref"; "HEAD"] /\
  remembers GetLastCommitTitle ["git"; "log"; "-1"; "--pretty=%B"] /\
  remembers GetLastTag ["git"; "describe"; "--tags"; "--abbrev=0"].
Proof.
  split; [|split; [|split]].
  - apply (cached_run_remembers _ lastCommit_shortSHA set_lastCommit_shortSHA);
      [intros; apply GetLastCommitShortSHA_run | done | by intros []].
  - apply (cached_run_remembers _ actualBranch set_actualBranch);
      [intros; apply GetActualBranch_run | done | by intros []].
  - apply (cached_run_remembers _ lastCommit_title set_lastCommit_title);
      [intros; apply GetLastCommitTitle_run | done | by intros []].
  - apply (cached_run_remembers _ lastTag set_lastTag);
      [intros; apply GetLastTag_run | done | by intros []].
Qed.


Lemma Sprintf_semver_nonempty (major minor patch : Z) :
  String.eqb (Sprintf_semver major minor patch) "" = false.
Proof. unfold Sprintf_semver. by rewrite append_String. Qed.

Lemma Atoi_Failed (s : string) (err : goerror) :
  Atoi s = Failed err -> exists e, err = NumError "Atoi" s e.
Proof.
  unfold Atoi.
  destruct (if HasPrefix s "-" || HasPrefix s "+" then drop_bytes 1 s else s);
    [intros [= <-]; by eexists|].
  destruct (parse_digits 0 _) as [e|un]; [intros [= <-]; by eexists|].
  destruct (negb (HasPrefix s "-") && _); [intros [= <-]; by eexists|].
  destruct (HasPrefix s "-" && _); [intros [= <-]; by eexists|done].
Qed.

Lemma parse_tag_cases (tag : string) :
  let body := TrimPrefix tag "v" in
  (count_byte "." body <> 2 ->
   parse_tag tag = Failed (ErrorsNew ("invalid tag format:" ++ body))) /\
  (count_byte "." body = 2 ->
   (exists major minor patch,
       parse_tag tag = Done (major, minor, patch) /\
       in_int_range major /\ in_int_range minor /\ in_int_range patch) \/
   (exists num e, parse_tag tag = Failed (NumError "Atoi" num e))).
Proof.
  intros body. unfold parse_tag. fold body.
  pose proof (length_Split body ".") as Hlen.
  destruct (Split body ".") as [|part0 [|part1 [|part2 [|part3 parts]]]];
    cbn in Hlen; (split; [intros Hdots; try done; lia | intros Hdots; try lia]).
  destruct (Atoi part0) as [major|err] eqn:H0.
  2: { right. apply Atoi_Failed in H0 as [e ->]. by eexists _, _. }
  destruct (Atoi part1) as [minor|err] eqn:H1.
  2: { right. apply Atoi_Failed in H1 as [e ->]. by eexists _, _. }
  destruct (Atoi part2) as [patch|err] eqn:H2.
  2: { right. apply Atoi_Failed in H2 as [e ->]. by eexists _, _. }
  left. exists major, minor, patch.
  split; [done|].
  split; [|split]; eapply Atoi_in_range; eassumption.
Qed.

Lemma GetLastSemanticVersionedTag_run {S : Type} (t : Container S) (s : S) (g : Git) :
  run t (GetLastSemanticVersionedTag g) s =
    let r1 := run t (GetLastTag g) s in
    mkRun (trace r1) (final r1)
      ((returned r1).1,
       match (returned r1).2 with
       | Failed err => Failed err
       | Done tag => parse_tag tag
       end).
Proof.
  unfold GetLastSemanticVersionedTag. rewrite Exec_run_bind. cbn zeta.
  destruct (run t (GetLastTag g) s) as [tr s1 [g1 [tag|err]]]; cbn;
    by rewrite app_nil_r.
Qed.

(** X8. A tag of the form that [GetNewSemVerIfNeeded] prints is read back
    by [GetLastSemanticVersionedTag] as the three numbers printed, whether
    the tag is remembered already or git describes it now (followed by a
    newline); negative numbers included. *)
Theorem X8_semver_round_trip {S : Type} (t : Container S) (s : S) (g : Git)
    (major minor patch : Z) :
  in_int_range major -> in_int_range minor -> in_int_range patch ->
  (g.(lastTag) = Sprintf_semver major minor patch ->
   run t (GetLastSemanticVersionedTag g) s
   = mkRun [] s (g, Done (major, minor, patch))) /\
  (g.(lastTag) = "" ->
   (t [describe] s).1 = Done (Sprintf_semver major minor patch ++ newline)%string ->
   returned (run t (GetLastSemanticVersionedTag g) s)
   = (set_lastTag (Sprintf_semver major minor patch) g,
      Done (major, minor, patch))).
Proof.
  intros Hmajor Hminor Hpatch.
  rewrite GetLastSemanticVersionedTag_run, GetLastTag_run. unfold cached_run.
  split.
  - intros ->. rewrite Sprintf_semver_nonempty. cbn.
    by rewrite parse_tag_Sprintf_semver.
  - intros -> Hout. cbn. fold describe. rewrite Hout. cbn.
    by rewrite TrimSuffix_append, parse_tag_Sprintf_semver.
Qed.

(** X9. With a remembered tag [GetLastSemanticVersionedTag] runs nothing
    and leaves the [Git] as it is.  After one leading "v" is dropped the
    tag must hold exactly two dots: otherwise the error is "invalid tag
    format:" followed by the tag without that "v".  With two dots the
    result is three numbers, each within the range of an [int], or the
    error of [Atoi] for a part that is not a number. *)
Theorem X9_tag_format {S : Type} (t : Container S) (s : S) (g : Git) :
  g.(lastTag) <> "" ->
  let body := TrimPrefix g.(lastTag) "v" in
  let r := run t (GetLastSemanticVersionedTag g) s in
  trace r = [] /\ final r = s /\ (returned r).1 = g /\
  (count_byte "." body <> 2 ->
   (returned r).2 = Failed (ErrorsNew ("invalid tag format:" ++ body))) /\
  (count_byte "." body = 2 ->
   (exists major minor patch,
       (returned r).2 = Done (major, minor, patch) /\
       in_int_range major /\ in_int_range minor /\ in_int_range patch) \/
   (exists num e, (returned r).2 = Failed (NumError "Atoi" num e))).
Proof.
  intros Hcached body r. subst r.
  rewrite GetLastSemanticVersionedTag_run, GetLastTag_run. unfold cached_run.
  destruct (String.eqb_spec g.(lastTag) "") as [|_]; [done|]. cbn.
  split; [done|]. split; [done|]. split; [done|].
  apply parse_tag_cases.
Qed.


Lemma GetLastCommitTitle_fields {S : Type} (t : Container S) (s : S) (g : Git) :
  let r := run t (GetLastCommitTitle g) s in
  (returned r).1.(lastTag) = g.(lastTag) /\
  (returned r).1.(newSemVer) = g.(newSemVer) /\
  (forall title, (returned r).2 = Done title ->
                 (returned r).1.(lastCommit_title) = title).
Proof.
  rewrite GetLastCommitTitle_run. unfold cached_run.
  destruct (String.eqb g.(lastCommit_title) ""); cbn.
  - destruct (t _ s) as [[res|err] s1]; cbn; repeat split; by try intros ? [= <-].
  - repeat split. by intros ? [= <-].
Qed.

Lemma GetLastTag_fields {S : Type} (t : Container S) (s : S) (g : Git) :
  let r := run t (GetLastTag g) s in
  (returned r).1.(lastCommit_title) = g.(lastCommit_title) /\
  (returned r).1.(newSemVer) = g.(newSemVer) /\
  (forall tag, (returned r).2 = Done tag -> (returned r).1.(lastTag) = tag).
Proof.
  rewrite GetLastTag_run. unfold cached_run.
  destruct (String.eqb g.(lastTag) ""); cbn.
  - destruct (t _ s) as [[res|err] s1]; cbn; repeat split; by try intros ? [= <-].
  - repeat split. by intros ? [= <-].
Qed.

Lemma GetNewSemVerIfNeeded_run {S : Type} (t : Container S) (s : S) (g : Git) :
  g.(newSemVer) = "" ->
  run t (GetNewSemVerIfNeeded g) s =
    let r1 := run t (GetLastCommitTitle g) s in
    match (returned r1).2 with
    | Failed err => mkRun (trace r1) (final r1) ((returned r1).1, Failed err)
    | Done title =>
        let r2 := run t (GetLastSemanticVersionedTag (returned r1).1) (final r1) in
        mkRun (trace r1 ++ trace r2) (final r2)
          match (returned r2).2 with
          | Failed err => ((returned r2).1, Failed err)
          | Done (major, minor, patch) =>
              match bump title major minor patch with
              | None => ((returned r2).1, Done "")
              | Some (major, minor, patch) =>
                  (set_newSemVer (Sprintf_semver major minor patch) (returned r2).1,
                   Done (Sprintf_semver major minor patch))
              end
          end
    end.
Proof.
  intros Hmiss. unfold GetNewSemVerIfNeeded. rewrite Hmiss.
  cbn [String.eqb negb]. rewrite Exec_run_bind. cbn zeta.
  destruct (run t (GetLastCommitTitle g) s) as [tr1 s1 [g1 [title|err]]];
    cbn [trace final returned fst snd]; [|cbn; by rewrite app_nil_r].
  rewrite Exec_run_bind. cbn zeta.
  destruct (run t (GetLastSemanticVersionedTag g1) s1)
    as [tr2 s2 [g2 [[[major minor] patch]|err]]];
    cbn [trace final returned fst snd]; [|cbn; by rewrite app_nil_r].
  destruct (bump title major minor patch) as [[[major' minor'] patch']|];
    cbn; by rewrite app_nil_r.
Qed.

Lemma bump_Some (title : string) (major minor patch major' minor' patch' : Z) :
  in_int_range major -> in_int_range minor -> in_int_range patch ->
  bump title major minor patch = Some (major', minor', patch') ->
  in_int_range major' /\ in_int_range minor' /\ in_int_range patch' /\
  ((major < 2 ^ 63 - 1)%Z -> (minor < 2 ^ 63 - 1)%Z -> (patch < 2 ^ 63 - 1)%Z ->
   semver_lt (major, minor, patch) (major', minor', patch')).
Proof.
  intros Hmajor Hminor Hpatch. unfold bump.
  assert (Hzero : in_int_range 0) by (unfold in_int_range; lia).
  destruct (HasPrefix title "BREAKING CHANGE");
    [|destruct (HasPrefix title "feat"); [|destruct (HasPrefix title "fix"); [|done]]];
    intros [= <- <- <-];
    (split; [|split; [|split]]); try done; try apply int_incr_range;
    intros ? ? ?; unfold semver_lt, in_int_range in *;
    rewrite int_incr_small by lia; lia.
Qed.

Lemma GetNewSemVerIfNeeded_remembered {S : Type} (t : Container S) (s : S)
    (g g1 : Git) (v : string) :
  g.(newSemVer) = "" ->
  returned (run t (GetNewSemVerIfNeeded g) s) = (g1, Done v) ->
  v = "" \/ g1.(newSemVer) = v.
Proof.
  intros Hmiss. rewrite GetNewSemVerIfNeeded_run by done. cbn zeta.
  destruct (returned (run t (GetLastCommitTitle g) s)) as [g2 [title|err]];
    cbn [trace final returned fst snd]; [|done].
  destruct (returned (run t (GetLastSemanticVersionedTag g2) _))
    as [g3 [[[major minor] patch]|err]]; cbn [fst snd]; [|done].
  destruct (bump title major minor patch) as [[[major' minor'] patch']|];
    intros ?; simplify_eq; auto.
Qed.

(** X10. When [GetNewSemVerIfNeeded], with no version remembered, returns
    without error, the tag now remembered parses to three numbers: an
    unreadable tag is an error even for a commit that asks for no version.
    The version returned is the one the switch derives from the remembered
    title and those numbers: none, and then nothing is remembered, or the
    printed bump, which is remembered, is read back by
    [GetLastSemanticVersionedTag] as the bumped numbers, and is later than
    the tag's version provided none of the tag's numbers is the largest
    [int]. *)
Theorem X10_new_version_consistent {S : Type} (t : Container S) (s : S)
    (g g' : Git) (v : string) :
  g.(newSemVer) = "" ->
  returned (run t (GetNewSemVerIfNeeded g) s) = (g', Done v) ->
  exists major minor patch,
    parse_tag g'.(lastTag) = Done (major, minor, patch) /\
    match bump g'.(lastCommit_title) major minor patch with
    | None => v = "" /\ g'.(newSemVer) = ""
    | Some (major', minor', patch') =>
        v = Sprintf_semver major' minor' patch' /\
        g'.(newSemVer) = v /\
        parse_tag v = Done (major', minor', patch') /\
        ((major < 2 ^ 63 - 1)%Z -> (minor < 2 ^ 63 - 1)%Z ->
         (patch < 2 ^ 63 - 1)%Z ->
         semver_lt (major, minor, patch) (major', minor', patch'))
    end.
Proof.
  intros Hmiss. rewrite GetNewSemVerIfNeeded_run by done. cbn zeta.
  destruct (GetLastCommitTitle_fields t s g) as (Htag1 & Hsemver1 & Htitle1).
  destruct (run t (GetLastCommitTitle g) s) as [tr1 s1 [g1 [title|err]]];
    cbn [trace final returned fst snd] in *; [|done].
  specialize (Htitle1 title eq_refl).
  rewrite GetLastSemanticVersionedTag_run. cbn zeta.
  destruct (GetLastTag_fields t s1 g1) as (Htitle2 & Hsemver2 & Htag2).
  destruct (run t (GetLastTag g1) s1) as [tr2 s2 [g2 [tag|err]]];
    cbn [trace final returned fst snd] in *; [|done].
  specialize (Htag2 tag eq_refl).
  destruct (parse_tag tag) as [[[major minor] patch]|err] eqn:Hparse; [|done].
  assert (Hrange : in_int_range major /\ in_int_range minor /\ in_int_range patch).
  { destruct (parse_tag_cases tag) as [Hbad Hgood].
    destruct (decide (count_byte "." (TrimPrefix tag "v") = 2)) as [Hdots|Hdots].
    - destruct (Hgood Hdots) as [(a & b & c & Heq & ?)|(num & e & Heq)];
        rewrite Hparse in Heq; by simplify_eq.
    - rewrite Hbad in Hparse by done. done. }
  destruct Hrange as (Hmajor & Hminor & Hpatch).
  destruct (bump title major minor patch) as [[[major' minor'] patch']|] eqn:Hbump.
  - intros [= <- <-]. exists major, minor, patch. cbn.
    rewrite Htag2, Htitle2, Htitle1, Hparse, Hbump.
    destruct (bump_Some _ _ _ _ _ _ _ Hmajor Hminor Hpatch Hbump)
      as (Hmajor' & Hminor' & Hpatch' & Hlater).
    split; [done|]. split; [done|]. split; [done|]. split; [|done].
    by apply parse_tag_Sprintf_semver.
  - intros [= <- <-]. exists major, minor, patch.
    rewrite Htag2, Htitle2, Htitle1, Hparse, Hbump.
    split; [done|]. split; [done|]. by rewrite Hsemver2, Hsemver1.
Qed.

Lemma PushNewSemVerIfNeeded_run {S : Type} (t : Container S) (s : S) (g : Git) :
  run t (PushNewSemVerIfNeeded g) s =
    let lookup := run t (GetNewSemVerIfNeeded g) s in
    let g1 := (returned lookup).1 in
    match (returned lookup).2 with
    | Failed err => mkRun (trace lookup) (final lookup) (g1, Some err)
    | Done semver =>
        if String.eqb semver "" then mkRun (trace lookup) (final lookup) (g1, None)
        else
          let x := t (push_commands semver) (final lookup) in
          mkRun (trace lookup ++ [(push_commands semver, x.1)]) x.2
            (g1, match x.1 with
                 | Failed err => Some err
                 | Done _ => None
                 end)
    end.
Proof.
  unfold PushNewSemVerIfNeeded. rewrite Exec_run_bind. cbn zeta.
  destruct (run t (GetNewSemVerIfNeeded g) s) as [tr s1 [g1 [semver|err]]];
    cbn [trace final returned fst snd]; [|cbn; by rewrite app_nil_r].
  destruct (String.eqb semver ""); cbn; [by rewrite app_nil_r|].
  fold (push_commands semver).
  by destruct (t (push_commands semver) s1) as [[out|err] s2].
Qed.

(** Every command that [GetNewSemVerIfNeeded] runs is one of its two
    lookups. *)
Lemma GetNewSemVerIfNeeded_executed {S : Type} (t : Container S) (s : S) (g : Git) :
  forall commands, commands ∈ executed (run t (GetNewSemVerIfNeeded g) s) ->
    commands = [["git"; "log"; "-1"; "--pretty=%B"]] \/ commands = [describe].
Proof.
  assert (Htitle : forall s g commands,
             commands ∈ executed (run t (GetLastCommitTitle g) s) ->
             commands = [["git"; "log"; "-1"; "--pretty=%B"]]).
  { intros s0 g0 commands. rewrite GetLastCommitTitle_run. unfold cached_run, executed.
    destruct (String.eqb _ ""); cbn; [|by intros ?%elem_of_nil].
    by intros ->%list_elem_of_singleton. }
  assert (Htag : forall s g commands,
             commands ∈ executed (run t (GetLastSemanticVersionedTag g) s) ->
             commands = [describe]).
  { intros s0 g0 commands.
    rewrite GetLastSemanticVersionedTag_run, GetLastTag_run.
    unfold cached_run, executed.
    destruct (String.eqb _ ""); cbn; [|by intros ?%elem_of_nil].
    by intros ->%list_elem_of_singleton. }
  intros commands. unfold GetNewSemVerIfNeeded.
  destruct (negb _); [by intros ?%elem_of_nil|].
  rewrite Exec_run_bind. cbn zeta. unfold executed at 1. cbn [trace].
  rewrite map_app, elem_of_app.
  intros [Hin|Hin]; [left; by eapply Htitle|].
  destruct (returned (run t (GetLastCommitTitle g) s)) as [g1 [title|err]];
    [|by apply elem_of_nil in Hin].
  rewrite Exec_run_bind in Hin. cbn zeta in Hin. cbn [trace] in Hin.
  rewrite map_app, elem_of_app in Hin.
  destruct Hin as [Hin|Hin]; [right; by eapply Htag|].
  destruct (returned (run t (GetLastSemanticVersionedTag g1) _))
    as [g2 [[[major minor] patch]|err]]; [|by apply elem_of_nil in Hin].
  destruct (bump title major minor patch) as [[[major' minor'] patch']|];
    by apply elem_of_nil in Hin.
Qed.

(** X11. [PushNewSemVerIfNeeded] first looks the new version up.  When the
    lookup fails it returns that error, and when no version is needed it
    returns nil: in both cases it has run nothing but the lookups, so no
    tag is made and nothing is pushed.  Otherwise it runs, as its last
    command and once, [git tag] with the version followed by [git push
    --tags], and returns the error of that, if any. *)
Theorem X11_push_only_when_needed {S : Type} (t : Container S) (s : S) (g : Git) :
  let lookup := run t (GetNewSemVerIfNeeded g) s in
  let r := run t (PushNewSemVerIfNeeded g) s in
  (forall commands, commands ∈ executed lookup -> length commands = 1) /\
  (returned r).1 = (returned lookup).1 /\
  match (returned lookup).2 with
  | Failed err =>
      executed r = executed lookup /\ (returned r).2 = Some err
  | Done semver =>
      if String.eqb semver "" then
        executed r = executed lookup /\ (returned r).2 = None
      else
        executed r = executed lookup ++ [push_commands semver] /\
        (returned r).2
        = match (t (push_commands semver) (final lookup)).1 with
          | Failed err => Some err
          | Done _ => None
          end
  end.
Proof.
  intros lookup r. split.
  { intros commands Hin.
    by destruct (GetNewSemVerIfNeeded_executed t s g commands Hin) as [->| ->]. }
  subst r. rewrite PushNewSemVerIfNeeded_run. cbn zeta. fold lookup.
  destruct (returned lookup) as [g1 [semver|err]]; cbn [fst snd]; [|done].
  destruct (String.eqb semver ""); [done|].
  unfold executed. cbn. by rewrite map_app.
Qed.

(** X12. A version once returned by [GetNewSemVerIfNeeded] is remembered,
    so [PushNewSemVerIfNeeded] called again looks nothing up and runs the
    same [git tag] and [git push] a second time. *)
Theorem X12_push_again {S : Type} (t : Container S) (s : S) (g g1 : Git)
    (v : string) :
  returned (run t (GetNewSemVerIfNeeded g) s) = (g1, Done v) ->
  v <> "" ->
  g1.(newSemVer) = v /\
  (forall s', run t (GetNewSemVerIfNeeded g1) s' = mkRun [] s' (g1, Done v)) /\
  (forall s', executed (run t (PushNewSemVerIfNeeded g1) s') = [push_commands v] /\
              (returned (run t (PushNewSemVerIfNeeded g1) s')).1 = g1).
Proof.
  intros Hret Hv.
  assert (Hcached : g1.(newSemVer) = v).
  { destruct (String.eqb_spec g.(newSemVer) "") as [Hmiss|Hhit].
    - by destruct (GetNewSemVerIfNeeded_remembered t s g g1 v Hmiss Hret).
    - unfold GetNewSemVerIfNeeded in Hret.
      destruct (String.eqb_spec g.(newSemVer) "") as [|_]; [done|].
      cbn in Hret. by simplify_eq. }
  assert (Hagain : forall s', run t (GetNewSemVerIfNeeded g1) s'
                              = mkRun [] s' (g1, Done v)).
  { intros s'. unfold GetNewSemVerIfNeeded. rewrite Hcached.
    by destruct (String.eqb_spec v "") as [|_]. }
  split; [done|]. split; [done|].
  intros s'. rewrite PushNewSemVerIfNeeded_run. cbn zeta. rewrite Hagain. cbn.
  by destruct (String.eqb_spec v "") as [|_].
Qed.

(** ** [Git] on a repository *)

Example Atoi_accepts :
  Atoi "+7" = Done 7%Z /\ Atoi "007" = Done 7%Z /\
  Atoi "-9223372036854775808" = Done (- 2 ^ 63)%Z.
Proof. repeat split. Qed.

Example Atoi_refuses :
  Atoi "" = Failed (NumError "Atoi" "" ErrSyntax) /\
  Atoi "-" = Failed (NumError "Atoi" "-" ErrSyntax) /\
  Atoi "1_0" = Failed (NumError "Atoi" "1_0" ErrSyntax) /\
  Atoi "9223372036854775808"
    = Failed (NumError "Atoi" "9223372036854775808" ErrRange).
Proof. repeat split. Qed.

Example parse_tag_examples :
  parse_tag "v0.46.2" = Done (0, 46, 2)%Z /\
  parse_tag "vv1.2.3" = Failed (NumError "Atoi" "v1" ErrSyntax) /\
  parse_tag "v1.2" = Failed (ErrorsNew "invalid tag format:1.2") /\
  parse_tag "" = Failed (ErrorsNew "invalid tag format:").
Proof. repeat split. Qed.

Example push_on_repository :
  executed (run repository (PushNewSemVerIfNeeded git0) 0)
  = [[["git"; "log"; "-1"; "--pretty=%B"]];
     [describe];
     push_commands "v0.47.0"].
Proof. reflexivity. Qed.

(** X8 on the tag v0.47.0. *)
Lemma X8_semver_round_trip_witness :
  in_int_range 0 /\ in_int_range 47 /\
  run repository
    (GetLastSemanticVersionedTag (set_lastTag (Sprintf_semver 0 47 0) git0)) 0
  = mkRun [] 0 (set_lastTag (Sprintf_semver 0 47 0) git0, Done (0, 47, 0)%Z).
Proof.
  assert (H0 : in_int_range 0) by (unfold in_int_range; lia).
  assert (H47 : in_int_range 47) by (unfold in_int_range; lia).
  split; [exact H0|]. split; [exact H47|].
  apply (X8_semver_round_trip repository 0
           (set_lastTag (Sprintf_semver 0 47 0) git0) 0 47 0 H0 H47 H0).
  reflexivity.
Defined.

(** X9 on a tag with one dot. *)
Lemma X9_tag_format_witness :
  (set_lastTag "v1.2" git0).(lastTag) <> "" /\
  (returned (run repository
               (GetLastSemanticVersionedTag (set_lastTag "v1.2" git0)) 0)).2
  = Failed (ErrorsNew "invalid tag format:1.2").
Proof.
  assert (Hcached : (set_lastTag "v1.2" git0).(lastTag) <> "") by discriminate.
  split; [exact Hcached|].
  destruct (X9_tag_format repository 0 (set_lastTag "v1.2" git0) Hcached)
    as (_ & _ & _ & Hbad & _).
  apply Hbad. cbn. lia.
Defined.

(** X10 on the repository: a feature on top of v0.46.2 gives v0.47.0. *)
Lemma X10_new_version_consistent_witness :
  let g' := mkGit ("feat: rabbitmq broker" ++ newline) "" "v0.46.2" "v0.47.0" "" in
  git0.(newSemVer) = "" /\
  returned (run repository (GetNewSemVerIfNeeded git0) 0) = (g', Done "v0.47.0") /\
  exists major minor patch,
    parse_tag g'.(lastTag) = Done (major, minor, patch) /\
    match bump g'.(lastCommit_title) major minor patch with
    | None => "v0.47.0" = "" /\ g'.(newSemVer) = ""
    | Some (major', minor', patch') =>
        "v0.47.0" = Sprintf_semver major' minor' patch' /\
        g'.(newSemVer) = "v0.47.0" /\
        parse_tag "v0.47.0" = Done (major', minor', patch') /\
        ((major < 2 ^ 63 - 1)%Z -> (minor < 2 ^ 63 - 1)%Z ->
         (patch < 2 ^ 63 - 1)%Z ->
         semver_lt (major, minor, patch) (major', minor', patch'))
    end.
Proof.
  cbn zeta. split; [reflexivity|]. split; [reflexivity|].
  apply (X10_new_version_consistent repository 0 git0); reflexivity.
Defined.

(** X12 on the repository: the second push repeats the first. *)
Lemma X12_push_again_witness :
  let g' := mkGit ("feat: rabbitmq broker" ++ newline) "" "v0.46.2" "v0.47.0" "" in
  returned (run repository (GetNewSemVerIfNeeded git0) 0) = (g', Done "v0.47.0") /\
  "v0.47.0" <> "" /\
  executed (run repository (PushNewSemVerIfNeeded g') 3) = [push_commands "v0.47.0"].
Proof.
  cbn zeta.
  assert (Hv : "v0.47.0" <> "") by discriminate.
  split; [reflexivity|]. split; [exact Hv|].
  destruct (X12_push_again repository 0 git0 _ "v0.47.0" eq_refl Hv)
    as (_ & _ & Hpush).
  apply Hpush.
Defined.

End GitCIFacts.
